(** * Fourier space time-stepping option pricer (option.cu)

    A shallow embedding of the CUDA pricing engine of [src/option.cu] and the
    properties of its kernels and of the host orchestration.

    Modelling conventions.
    - [double] is modelled by the real numbers [R] (exact arithmetic); [exp],
      [cos], [sin] and [log] are the functions of the Standard Library.
    - [int] is modelled by [Z]; C integer division is [Z.quot].  For a
      positive resolution [N] and a number of steps in the range of [int],
      the integer expressions of the program ([N - 1], [N / 2 + 1],
      [idx - N], [i + 1] and the thread indices) stay in that range, so no
      wrap-around is written out.
    - A device or host array is a [list]; [a[idx]] is [load]/[store].
    - A kernel is a function of the global thread index [idx] and of the array
      it writes; a launch [<<<gridDim, blockDim>>>] runs it once for every
      [blockIdx * blockDim + threadIdx].  Every kernel of the program reads and
      writes only cell [idx] of the array it mutates, so the order in which the
      threads run is immaterial and the launch is modelled as a left fold.
    - What the program takes from files that are not part of [option.cu]
      ([parameters.h], the C math library, cuFFT, the contents of freshly
      allocated device memory) is gathered in the class [Externals]. *)

From Stdlib Require Import Reals Lra Lia ZArith.
From stdpp Require Import base list list_numbers.

Local Open Scope R_scope.

(** ** Complex numbers ([cuComplex.h])

    [cuCdiv] is the scaled division of the CUDA header; [cuCabs] is the
    modulus that the header computes with a scaled square root. *)

Record complex : Type := makeComplex { cuCreal : R; cuCimag : R }.

Definition cuCadd (x y : complex) : complex :=
  makeComplex (cuCreal x + cuCreal y) (cuCimag x + cuCimag y).

Definition cuCmul (x y : complex) : complex :=
  makeComplex (cuCreal x * cuCreal y - cuCimag x * cuCimag y)
              (cuCreal x * cuCimag y + cuCimag x * cuCreal y).

Definition cuConj (x : complex) : complex :=
  makeComplex (cuCreal x) (- cuCimag x).

Definition cuCdiv (x y : complex) : complex :=
  let s := Rabs (cuCreal y) + Rabs (cuCimag y) in
  let oos := 1 / s in
  let ars := cuCreal x * oos in
  let ais := cuCimag x * oos in
  let brs := cuCreal y * oos in
  let bis := cuCimag y * oos in
  let s := brs * brs + bis * bis in
  let oos := 1 / s in
  makeComplex ((ars * brs + ais * bis) * oos) ((ais * brs - ars * bis) * oos).

Definition cuCabs (x : complex) : R :=
  sqrt (cuCreal x * cuCreal x + cuCimag x * cuCimag x).

(** ** Parameters ([parameters.h]: the fields [option.cu] reads) *)

Inductive OptionExerciseType : Type := European | American.
Inductive OptionPayoffType : Type := Call | Put.

Module JumpType.
Inductive t : Type := None | Merton | Kou | CGMY.
End JumpType.

Record Parameters : Type := {
  startPrice : R;
  strikePrice : R;
  riskFreeRate : R;
  dividendRate : R;
  volatility : R;
  expiryTime : R;
  resolution : Z;
  timesteps : Z;
  optionExerciseType : OptionExerciseType;
  optionPayoffType : OptionPayoffType;
  jumpType : JumpType.t;
  jumpMean : R;
  driftRate : R;
  mertonNormalStdev : R;
  kouUpJumpProbability : R;
  kouUpRate : R;
  kouDownRate : R;
  CGMY_C : R;
  CGMY_G : R;
  CGMY_M : R;
  CGMY_Y : R
}.

#[global] Instance OptionExerciseType_eq_dec : EqDecision OptionExerciseType.
Proof. solve_decision. Defined.
#[global] Instance OptionPayoffType_eq_dec : EqDecision OptionPayoffType.
Proof. solve_decision. Defined.
#[global] Instance JumpType_eq_dec : EqDecision JumpType.t.
Proof. solve_decision. Defined.

(** ** What [option.cu] takes from outside

    [x_min], [x_max] and [kappa] are member functions of [Parameters] whose
    bodies are in [parameters.h]; [tgamma], [atan2] and [pow] are the C math
    library functions that have no counterpart among the real functions used
    here; [cufft_D2Z N x k] is bin [k] of the forward real-to-complex
    transform of size [N] and [cufft_Z2D N X n] is sample [n] of the
    unnormalised complex-to-real transform of the [N/2+1] bins [X]; [junk]
    gives the contents of device memory returned by [cudaMalloc]. *)

Class Externals : Type := {
  x_min : Parameters -> R;
  x_max : Parameters -> R;
  kappa : Parameters -> R;
  tgamma : R -> R;
  atan2 : R -> R -> R;
  pow : R -> R -> R;
  cufft_D2Z : Z -> list R -> Z -> complex;
  cufft_Z2D : Z -> list complex -> Z -> R;
  junk : Z -> complex
}.

(** ** Arrays, kernels and launches *)

(** An access outside an array is undefined behaviour in the source; here a
    load outside the array gives [dflt] and a store outside it changes
    nothing.  On a resolution that is a power of two no launch of the program
    runs a thread beyond the [N] cells of its arrays ([grid_covers_pow2],
    [fourier_launch_within]). *)
Definition load {A : Type} (dflt : A) (a : list A) (idx : Z) : A :=
  if decide (0 <= idx)%Z then default dflt (a !! Z.to_nat idx) else dflt.

Definition store {A : Type} (a : list A) (idx : Z) (v : A) : list A :=
  if decide (0 <= idx)%Z then <[Z.to_nat idx := v]> a else a.

Definition thread_indices (gridDim blockDim : Z) : list Z :=
  blockIdx ← seqZ 0 gridDim;
  threadIdx ← seqZ 0 blockDim;
  [(blockIdx * blockDim + threadIdx)%Z].

Definition launch {M : Type} (gridDim blockDim : Z)
    (kernel : Z -> M -> M) (mem : M) : M :=
  foldl (fun m idx => kernel idx m) mem (thread_indices gridDim blockDim).

(** The double-precision build (without [USE_FLOAT]). *)
Definition MAX_BLOCK_SIZE : Z := 1024.

Definition czero : complex := makeComplex 0 0.

(** ** Device helpers *)

Definition cuComplexExponential (x : complex) : complex :=
  let a := cuCreal x in
  let b := cuCimag x in
  let ea := exp a in
  makeComplex (ea * cos b) (ea * sin b).

Definition cuComplexScalarMult (scalar : R) (x : complex) : complex :=
  let a := cuCreal x in
  let b := cuCimag x in
  makeComplex (scalar * a) (scalar * b).

(** ** Kernels

    The array a kernel mutates is its last argument and the thread index
    [idx = blockIdx.x * blockDim.x + threadIdx.x] the one before it; the other
    arguments are in the order of the source. *)

Definition normalize (length : Z) (idx : Z) (ft : list R) : list R :=
  store ft idx (load 0 ft idx / IZR length).

Definition earlyExercise (startPrice strikePrice x_min delta_x : R)
    (type : OptionPayoffType) (idx : Z) (ft : list R) : list R :=
  let assetPrice := startPrice * exp (x_min + IZR idx * delta_x) in
  if decide (type = Call) then
    store ft idx (Rmax (load 0 ft idx) (Rmax (assetPrice - strikePrice) 0))
  else
    store ft idx (Rmax (load 0 ft idx) (Rmax (strikePrice - assetPrice) 0)).

Definition prepareMertonJumpFT (delta_frequency : R) (N : Z)
    (mertonNormalStdev driftRate : R) (idx : Z) (jump_ft : list complex)
    : list complex :=
  let m := if decide (idx <= N ÷ 2)%Z then IZR idx else IZR (idx - N) in
  let k := delta_frequency * m in
  let real := PI * k * mertonNormalStdev in
  let real := -2 * real * real in
  let imag := -2 * PI * k * driftRate in
  let exponent := makeComplex real imag in
  store jump_ft idx (cuComplexExponential exponent).

Definition prepareKouJumpFT (delta_frequency : R) (N : Z)
    (kouUpJumpProbability kouUpRate kouDownRate : R) (idx : Z)
    (jump_ft : list complex) : list complex :=
  let p := kouUpJumpProbability in
  let m := if decide (idx <= N ÷ 2)%Z then IZR idx else IZR (idx - N) in
  let k := delta_frequency * m in
  let up := cuCdiv (makeComplex p 0)
                   (makeComplex 1 (2 * PI * k / kouUpRate)) in
  let down := cuCdiv (makeComplex (1 - p) 0)
                     (makeComplex 1 (-2 * PI * k / kouDownRate)) in
  store jump_ft idx (cuCadd up down).

(** [jump_ft] is a pointer that may be null: [None] is the null pointer. *)
Definition prepareJumpModelCharacteristic (jump_ft : option (list complex))
    (riskFreeRate dividend volatility jumpMean kappa delta_frequency : R)
    (N : Z) (idx : Z) (characteristic : list complex) : list complex :=
  let m := if decide (idx <= N ÷ 2)%Z then IZR idx else IZR (idx - N) in
  let k := delta_frequency * m in
  let fst_term := volatility * PI * k in
  let psi := makeComplex
      ((-2 * fst_term * fst_term) - (riskFreeRate + jumpMean))
      ((riskFreeRate - dividend - jumpMean * kappa - volatility * volatility / 2) *
                (2 * PI * k)) in
  let psi :=
    match jump_ft with
    | Some jump_ft =>
        cuCadd psi (cuComplexScalarMult jumpMean (cuConj (load czero jump_ft idx)))
    | None => psi
    end in
  store characteristic idx psi.

Definition solveODE (characteristic : list complex) (from_time to_time : R)
    (idx : Z) (ft : list complex) : list complex :=
  let old_value := load czero ft idx in
  let psi := load czero characteristic idx in
  let delta_tau := to_time - from_time in
  let exponent := cuComplexScalarMult delta_tau psi in
  let exponential := cuComplexExponential exponent in
  let new_value := cuCmul old_value exponential in
  store ft idx new_value.

Section Engine.
Context `{Externals}.

Definition cuComplexPower (base exponent : complex) : complex :=
  let a := cuCreal base in
  let b := cuCimag base in
  let c := cuCreal exponent in
  let d := cuCimag exponent in
  let r := cuCabs base in
  let theta := atan2 b a in
  let scalar := pow r c * exp (- theta * d) in
  let angle := d * ln r + c * theta in
  makeComplex (scalar * cos angle) (scalar * sin angle).

Definition prepareCGMYCharacteristic (N : Z) (delta_frequency : R)
    (C G M Y gamma : R) (idx : Z) (characteristic : list complex)
    : list complex :=
  let m := if decide (idx <= N ÷ 2)%Z then IZR idx else IZR (idx - N) in
  let k := delta_frequency * m in
  let w := 2 * PI * k in
  let MY := cuComplexPower (makeComplex M (- w)) (makeComplex Y 0) in
  let MG := cuComplexPower (makeComplex G w) (makeComplex Y 0) in
  store characteristic idx
    (cuComplexScalarMult (C * gamma)
       (cuCadd (makeComplex (- pow M Y - pow G Y) 0) (cuCadd MY MG))).

(** ** Host code *)

Definition assetPricesAtPayoff (prms : Parameters) : list R :=
  let N := IZR (resolution prms) in
  let out := replicate (Z.to_nat (resolution prms)) 0 in
  let x_max := x_max prms in
  let x_min := x_min prms in
  let delta_x := (x_max - x_min) / (N - 1) in
  foldl (fun out i =>
           store out i (startPrice prms * exp (x_min + IZR i * delta_x)))
        out (seqZ 0 (resolution prms)).

Definition optionValuesAtPayoff (prms : Parameters) (assetPrices : list R)
    : list R :=
  let out := replicate (Z.to_nat (resolution prms)) 0 in
  foldl (fun out i =>
           if decide (optionPayoffType prms = Call) then
             store out i (Rmax (load 0 assetPrices i - strikePrice prms) 0)
           else
             store out i (Rmax (strikePrice prms - load 0 assetPrices i) 0))
        out (seqZ 0 (resolution prms)).

(** [cudaMalloc] of [n] complex cells: the contents are whatever [junk] is. *)
Definition cudaMalloc (n : Z) : list complex := junk <$> seqZ 0 n.

(** The two cuFFT executions.  The forward plan writes the [N/2+1]
    non-redundant bins of its output array and the inverse plan reads the
    same [N/2+1] bins and writes [N] reals. *)
Definition cufftExecD2Z (N : Z) (idata : list R) (odata : list complex)
    : list complex :=
  foldl (fun o k => store o k (cufft_D2Z N idata k)) odata
        (seqZ 0 (N ÷ 2 + 1)).

Definition cufftExecZ2D (N : Z) (idata : list complex) (odata : list R)
    : list R :=
  foldl (fun o n =>
           store o n (cufft_Z2D N (take (Z.to_nat (N ÷ 2 + 1)) idata) n))
        odata (seqZ 0 N).

(** Conversions between [double] and [int]: [(int)x] truncates towards
    zero and [ceil] rounds up. *)
Definition double_to_int (x : R) : Z :=
  if Rle_dec 0 x then Zfloor x else Zceil x.

Definition ceil (x : R) : R := IZR (Zceil x).

(** The discretization parameters of [computeGPU]. *)
Definition delta_x (params : Parameters) : R :=
  let N := resolution params in
  let x_min := x_min params in
  let x_max := x_max params in
  (x_max - x_min) / IZR (N - 1).

Definition delta_frequency (params : Parameters) : R :=
  let N := resolution params in
  let x_min := x_min params in
  let x_max := x_max params in
  IZR (N - 1) / (x_max - x_min) / IZR N.

(** The part of [computeGPU] before the time loop that fills
    [d_characteristic]. *)
Definition characteristicOf (params : Parameters) : list complex :=
  let N := resolution params in
  let delta_frequency := delta_frequency params in
  let d_characteristic := cudaMalloc N in
  if decide (jumpType params = JumpType.CGMY) then
    launch (Z.max (N ÷ MAX_BLOCK_SIZE) 1) (Z.min N MAX_BLOCK_SIZE)
      (prepareCGMYCharacteristic N delta_frequency
         (CGMY_C params) (CGMY_G params) (CGMY_M params) (CGMY_Y params)
         (tgamma (- CGMY_Y params)))
      d_characteristic
  else
    let d_jump_ft :=
      if decide (jumpType params <> JumpType.None) then
        let d_jump_ft := cudaMalloc N in
        if decide (jumpType params = JumpType.Merton) then
          Some (launch (Z.max (N ÷ MAX_BLOCK_SIZE) 1) (Z.min N MAX_BLOCK_SIZE)
                  (prepareMertonJumpFT delta_frequency N
                     (mertonNormalStdev params) (driftRate params))
                  d_jump_ft)
        else if decide (jumpType params = JumpType.Kou) then
          Some (launch (Z.max (N ÷ MAX_BLOCK_SIZE) 1) (Z.min N MAX_BLOCK_SIZE)
                  (prepareKouJumpFT delta_frequency N
                     (kouUpJumpProbability params) (kouUpRate params)
                     (kouDownRate params))
                  d_jump_ft)
        else Some d_jump_ft
      else None in
    launch (Z.max (N ÷ MAX_BLOCK_SIZE) 1) (Z.min N MAX_BLOCK_SIZE)
      (prepareJumpModelCharacteristic d_jump_ft
         (riskFreeRate params) (dividendRate params)
         (volatility params) (jumpMean params) (kappa params)
         delta_frequency N)
      d_characteristic.

(** The body of the time loop of [computeGPU], on the pair of device
    arrays [(d_prices, d_ft)], in two parts: [propagate] is the body up to
    and including [normalize], [timestep] adds the early exercise. *)
Definition propagate (params : Parameters) (d_characteristic : list complex)
    (st : list R * list complex) (i : Z) : list R * list complex :=
  let '(d_prices, d_ft) := st in
  let N := resolution params in
  let from_time := IZR i / IZR (timesteps params) * expiryTime params in
  let to_time := IZR (i + 1) / IZR (timesteps params) * expiryTime params in
  let d_ft := cufftExecD2Z N d_prices d_ft in
  let fourier_size := (N ÷ 2 + 1)%Z in
  let fourier_block_count :=
    double_to_int (ceil (IZR fourier_size / IZR MAX_BLOCK_SIZE)) in
  let fourier_block_size := Z.min fourier_size MAX_BLOCK_SIZE in
  let d_ft :=
    launch fourier_block_count fourier_block_size
      (solveODE d_characteristic from_time to_time) d_ft in
  let d_prices := cufftExecZ2D N d_ft d_prices in
  let d_prices :=
    launch (Z.max (N ÷ MAX_BLOCK_SIZE) 1) (Z.min N MAX_BLOCK_SIZE)
      (normalize N) d_prices in
  (d_prices, d_ft).

Definition timestep (params : Parameters) (d_characteristic : list complex)
    (st : list R * list complex) (i : Z) : list R * list complex :=
  let N := resolution params in
  let x_min := x_min params in
  let delta_x := delta_x params in
  let '(d_prices, d_ft) := propagate params d_characteristic st i in
  let d_prices :=
    if decide (optionExerciseType params = American) then
      launch (Z.max (N ÷ MAX_BLOCK_SIZE) 1) (Z.min N MAX_BLOCK_SIZE)
        (earlyExercise (startPrice params) (strikePrice params)
           x_min delta_x (optionPayoffType params))
        d_prices
    else d_prices in
  (d_prices, d_ft).

(** The time loop of [computeGPU]: the device arrays [(d_prices, d_ft)]
    after the last step. *)
Definition timeLoop (params : Parameters) (d_characteristic : list complex)
    (optionValues : list R) : list R * list complex :=
  let N := resolution params in
  let d_prices := take (Z.to_nat N) optionValues in
  let d_ft := cudaMalloc N in
  foldl (timestep params d_characteristic) (d_prices, d_ft)
        (seqZ 0 (timesteps params)).

(** The end of [computeGPU]: the printed price when the assertion on
    [answer_index] holds and the index is one of [initialValues].  [None]
    stands for the two ways in which the source prints no price of the
    field: the assertion fails, or it holds and the source reads
    [initialValues[(int)answer_index]] outside the vector, which the
    language leaves undefined. *)
Definition reportPrice (params : Parameters) (initialValues : list R)
    : option R :=
  let N := resolution params in
  let x_min := x_min params in
  let x_max := x_max params in
  let answer_index := - x_min * IZR (N - 1) / (x_max - x_min) in
  if Req_dec_T answer_index (IZR (double_to_int answer_index)) then
    if decide (0 <= double_to_int answer_index)%Z then
      initialValues !! Z.to_nat (double_to_int answer_index)
    else None
  else None.

(** [computeGPU].  [initialValues] is a host vector of the size of
    [optionValues], zero-initialised, into which the [N] prices are copied
    back after the loop. *)
Definition computeGPU (params : Parameters) (assetPrices optionValues : list R)
    : option R :=
  let initialValues := replicate (length optionValues) 0 in
  let d_characteristic := characteristicOf params in
  let d_prices := (timeLoop params d_characteristic optionValues).1 in
  let initialValues := d_prices ++ drop (length d_prices) initialValues in
  reportPrice params initialValues.

(** [main] after the parsing of the command line. *)
Definition main (params : Parameters) : option R :=
  let assetPrices := assetPricesAtPayoff params in
  let optionValues := optionValuesAtPayoff params assetPrices in
  computeGPU params assetPrices optionValues.

End Engine.


(** ** The program without the frequency fold

    The specification asks whether the branch [m = idx - N] of the
    providers can be dropped.  [NoFold] holds the four providers with
    [m = idx] throughout, and the part of [computeGPU] that calls them;
    everything else is the code above. *)

Module NoFold.

Definition prepareMertonJumpFT (delta_frequency : R) (N : Z)
    (mertonNormalStdev driftRate : R) (idx : Z) (jump_ft : list complex)
    : list complex :=
  let m := IZR idx in
  let k := delta_frequency * m in
  let real := PI * k * mertonNormalStdev in
  let real := -2 * real * real in
  let imag := -2 * PI * k * driftRate in
  let exponent := makeComplex real imag in
  store jump_ft idx (cuComplexExponential exponent).

Definition prepareKouJumpFT (delta_frequency : R) (N : Z)
    (kouUpJumpProbability kouUpRate kouDownRate : R) (idx : Z)
    (jump_ft : list complex) : list complex :=
  let p := kouUpJumpProbability in
  let m := IZR idx in
  let k := delta_frequency * m in
  let up := cuCdiv (makeComplex p 0)
                   (makeComplex 1 (2 * PI * k / kouUpRate)) in
  let down := cuCdiv (makeComplex (1 - p) 0)
                     (makeComplex 1 (-2 * PI * k / kouDownRate)) in
  store jump_ft idx (cuCadd up down).

Definition prepareJumpModelCharacteristic (jump_ft : option (list complex))
    (riskFreeRate dividend volatility jumpMean kappa delta_frequency : R)
    (N : Z) (idx : Z) (characteristic : list complex) : list complex :=
  let m := IZR idx in
  let k := delta_frequency * m in
  let fst_term := volatility * PI * k in
  let psi := makeComplex
      ((-2 * fst_term * fst_term) - (riskFreeRate + jumpMean))
      ((riskFreeRate - dividend - jumpMean * kappa - volatility * volatility / 2) *
                (2 * PI * k)) in
  let psi :=
    match jump_ft with
    | Some jump_ft =>
        cuCadd psi (cuComplexScalarMult jumpMean (cuConj (load czero jump_ft idx)))
    | None => psi
    end in
  store characteristic idx psi.

Section Engine.
Context `{Externals}.

Definition prepareCGMYCharacteristic (N : Z) (delta_frequency : R)
    (C G M Y gamma : R) (idx : Z) (characteristic : list complex)
    : list complex :=
  let m := IZR idx in
  let k := delta_frequency * m in
  let w := 2 * PI * k in
  let MY := cuComplexPower (makeComplex M (- w)) (makeComplex Y 0) in
  let MG := cuComplexPower (makeComplex G w) (makeComplex Y 0) in
  store characteristic idx
    (cuComplexScalarMult (C * gamma)
       (cuCadd (makeComplex (- pow M Y - pow G Y) 0) (cuCadd MY MG))).

Definition characteristicOf (params : Parameters) : list complex :=
  let N := resolution params in
  let delta_frequency := delta_frequency params in
  let d_characteristic := cudaMalloc N in
  if decide (jumpType params = JumpType.CGMY) then
    launch (Z.max (N ÷ MAX_BLOCK_SIZE) 1) (Z.min N MAX_BLOCK_SIZE)
      (prepareCGMYCharacteristic N delta_frequency
         (CGMY_C params) (CGMY_G params) (CGMY_M params) (CGMY_Y params)
         (tgamma (- CGMY_Y params)))
      d_characteristic
  else
    let d_jump_ft :=
      if decide (jumpType params <> JumpType.None) then
        let d_jump_ft := cudaMalloc N in
        if decide (jumpType params = JumpType.Merton) then
          Some (launch (Z.max (N ÷ MAX_BLOCK_SIZE) 1)
                  (Z.min N MAX_BLOCK_SIZE)
                  (prepareMertonJumpFT delta_frequency N
                     (mertonNormalStdev params) (driftRate params))
                  d_jump_ft)
        else if decide (jumpType params = JumpType.Kou) then
          Some (launch (Z.max (N ÷ MAX_BLOCK_SIZE) 1)
                  (Z.min N MAX_BLOCK_SIZE)
                  (prepareKouJumpFT delta_frequency N
                     (kouUpJumpProbability params) (kouUpRate params)
                     (kouDownRate params))
                  d_jump_ft)
        else Some d_jump_ft
      else None in
    launch (Z.max (N ÷ MAX_BLOCK_SIZE) 1) (Z.min N MAX_BLOCK_SIZE)
      (prepareJumpModelCharacteristic d_jump_ft
         (riskFreeRate params) (dividendRate params)
         (volatility params) (jumpMean params) (kappa params)
         delta_frequency N)
      d_characteristic.

Definition computeGPU (params : Parameters)
    (assetPrices optionValues : list R) : option R :=
  let initialValues := replicate (length optionValues) 0 in
  let d_characteristic := characteristicOf params in
  let d_prices := (timeLoop params d_characteristic optionValues).1 in
  let initialValues := d_prices ++ drop (length d_prices) initialValues in
  reportPrice params initialValues.

End Engine.
End NoFold.

(** ** Definitions used to state the properties *)

(** Modelled from the spec: [isPowerOfTwo] of [utils.h], which [main] asserts
    of the resolution ("N is a power of two"). *)
Definition isPowerOfTwo (N : Z) : Prop := ∃ k : nat, N = (2 ^ Z.of_nat k)%Z.

(** A kernel is pointwise when thread [idx] replaces cell [idx] by a function
    of its old contents and touches nothing else. *)
Definition pointwise {A : Type} (d : A) (g : Z → A → A)
    (kernel : Z → list A → list A) : Prop :=
  ∀ idx a, kernel idx a = store a idx (g idx (load d a idx)).

(** The intrinsic value at grid point [idx], in the words of the
    specification. *)
Definition intrinsic (startPrice strikePrice x_min delta_x : R)
    (type : OptionPayoffType) (idx : Z) : R :=
  let S := startPrice * exp (x_min + IZR idx * delta_x) in
  match type with
  | Call => Rmax (S - strikePrice) 0
  | Put => Rmax (strikePrice - S) 0
  end.

(** The signed frequency that every provider computes from [idx]. *)
Definition signed_frequency (idx N : Z) : R :=
  if decide (idx <= N ÷ 2)%Z then IZR idx else IZR (idx - N).

(** What the providers store for a thread whose signed frequency is [m]. *)
Definition merton_at (delta_frequency mertonNormalStdev driftRate m : R)
    : complex :=
  let k := delta_frequency * m in
  cuComplexExponential
    (makeComplex (-2 * (PI * k * mertonNormalStdev)
                  * (PI * k * mertonNormalStdev))
                 (-2 * PI * k * driftRate)).

Definition kou_at (delta_frequency p kouUpRate kouDownRate m : R) : complex :=
  let k := delta_frequency * m in
  cuCadd (cuCdiv (makeComplex p 0) (makeComplex 1 (2 * PI * k / kouUpRate)))
         (cuCdiv (makeComplex (1 - p) 0)
                 (makeComplex 1 (-2 * PI * k / kouDownRate))).

Definition diffusion_psi (riskFreeRate dividend volatility jumpMean kappa k : R)
    : complex :=
  makeComplex
    (-2 * (volatility * PI * k) * (volatility * PI * k)
     - (riskFreeRate + jumpMean))
    ((riskFreeRate - dividend - jumpMean * kappa - volatility * volatility / 2)
     * (2 * PI * k)).

Definition jump_psi_at (jump : option complex)
    (riskFreeRate dividend volatility jumpMean kappa delta_frequency m : R)
    : complex :=
  let psi :=
    diffusion_psi riskFreeRate dividend volatility jumpMean kappa
      (delta_frequency * m) in
  match jump with
  | Some j => cuCadd psi (cuComplexScalarMult jumpMean (cuConj j))
  | None => psi
  end.

Definition cgmy_at `{Externals} (delta_frequency C G M Y gamma m : R)
    : complex :=
  let w := 2 * PI * (delta_frequency * m) in
  cuComplexScalarMult (C * gamma)
    (cuCadd (makeComplex (- pow M Y - pow G Y) 0)
       (cuCadd (cuComplexPower (makeComplex M (- w)) (makeComplex Y 0))
               (cuComplexPower (makeComplex G w) (makeComplex Y 0)))).

(** The No-Jump characteristic exponent, in the words of the specification:
    [-2 (sigma pi k)^2 - r + i (r - q - sigma^2/2) (2 pi k)]. *)
Definition NoJump_psi_spec (sigma r q k : R) : complex :=
  makeComplex (-2 * (sigma * PI * k) ^ 2 - r)
              ((r - q - sigma ^ 2 / 2) * (2 * PI * k)).

(** The pricing parameters shared by all jump models. *)
Definition shared_parameters_agree (p1 p2 : Parameters) : Prop :=
  startPrice p1 = startPrice p2 ∧
  strikePrice p1 = strikePrice p2 ∧
  riskFreeRate p1 = riskFreeRate p2 ∧
  dividendRate p1 = dividendRate p2 ∧
  volatility p1 = volatility p2 ∧
  expiryTime p1 = expiryTime p2 ∧
  resolution p1 = resolution p2 ∧
  timesteps p1 = timesteps p2 ∧
  optionExerciseType p1 = optionExerciseType p2 ∧
  optionPayoffType p1 = optionPayoffType p2.

(** Two complex arrays agree on the bins [0 .. N/2] that the transforms
    write and read. *)
Definition agree_on_bins (N : Z) (a b : list complex) : Prop :=
  length a = length b ∧
  ∀ j : nat, (Z.of_nat j ≤ N ÷ 2)%Z → a !! j = b !! j.


(** Modelled from the spec: the bodies of [x_min()] and [x_max()]
    ([parameters.h]) are missing.  The Grid Builder of the specification
    takes the resolution, the volatility, the expiry and the risk-free rate
    and returns [x_min] and [x_max]: parameter records that agree on these
    four have the same bounds. *)
Definition grid_bounds_from_shared `{Externals} : Prop :=
  ∀ p1 p2 : Parameters,
    resolution p1 = resolution p2 →
    volatility p1 = volatility p2 →
    expiryTime p1 = expiryTime p2 →
    riskFreeRate p1 = riskFreeRate p2 →
    x_min p1 = x_min p2 ∧ x_max p1 = x_max p2.

(** ** Reference instances of the externals

    A direct discrete Fourier transform, written like the host function
    [dft] of the source and its unnormalised inverse on the Hermitian
    extension of the [N/2+1] bins, stands for cuFFT; [x_min], [x_max] and
    [kappa] are constants.  Only the CGMY provider calls [tgamma], [atan2]
    and [pow], and every run below is jump-free. *)

Definition dft_bin (N : Z) (x : list R) (k : Z) : complex :=
  foldl (λ acc n,
           cuCadd acc
             (cuComplexScalarMult (load 0 x n)
                (cuComplexExponential
                   (makeComplex 0 (-2 * PI * IZR k * IZR n / IZR N)))))
        czero (seqZ 0 N).

Definition hermitian (N : Z) (X : list complex) (k : Z) : complex :=
  if decide (k <= N ÷ 2)%Z then load czero X k
  else cuConj (load czero X (N - k)).

Definition idft_sample (N : Z) (X : list complex) (n : Z) : R :=
  cuCreal
    (foldl (λ acc k,
              cuCadd acc
                (cuCmul (hermitian N X k)
                   (cuComplexExponential
                      (makeComplex 0 (2 * PI * IZR k * IZR n / IZR N)))))
           czero (seqZ 0 N)).

(** The two-argument arctangent and the power of a positive base.  The
    Standard Library has no Gamma function: a constant stands for [tgamma]. *)
Definition atan2_ref (y x : R) : R :=
  if Rlt_dec 0 x then atan (y / x)
  else if Rlt_dec x 0 then
    if Rle_dec 0 y then atan (y / x) + PI else atan (y / x) - PI
  else if Rlt_dec 0 y then PI / 2
  else if Rlt_dec y 0 then - PI / 2
  else 0.

Definition referenceExternals (lo hi kap : R) : Externals := {|
  x_min := λ _, lo;
  x_max := λ _, hi;
  kappa := λ _, kap;
  tgamma := λ _, 1;
  atan2 := atan2_ref;
  pow := Rpower;
  cufft_D2Z := dft_bin;
  cufft_Z2D := idft_sample;
  junk := λ _, czero
|}.

(** A jump-free market with zero rates and volatility on a two-point grid;
    [lam] is the jump intensity and [drift] the Merton drift left in the
    parameter record. *)
Definition flatMarket (style : OptionExerciseType) (lam drift : R)
    : Parameters := {|
  startPrice := 1;
  strikePrice := 0;
  riskFreeRate := 0;
  dividendRate := 0;
  volatility := 0;
  expiryTime := 1;
  resolution := 2;
  timesteps := 1;
  optionExerciseType := style;
  optionPayoffType := Call;
  jumpType := JumpType.None;
  jumpMean := lam;
  driftRate := drift;
  mertonNormalStdev := 0;
  kouUpJumpProbability := 0;
  kouUpRate := 0;
  kouDownRate := 0;
  CGMY_C := 0;
  CGMY_G := 0;
  CGMY_M := 0;
  CGMY_Y := 0
|}.

(** ** The host reference transforms and [computeCPU]

    [dft], [idft_complex] and [idft] are the direct transforms of the source;
    the vectors they build start filled with zeros.  [printPrices] is
    modelled by the index it reports after the prices, [computeCPU] by the
    price it prints. *)

Definition dft (input : list R) : list complex :=
  let out := replicate (length input) czero in
  foldl (fun out k =>
           let out := store out k (makeComplex 0 0) in
           foldl (fun out n =>
                    let exponent :=
                      makeComplex 0
                        (-2 * PI * IZR k * IZR n
                         / IZR (Z.of_nat (length input))) in
                    store out k
                      (cuCadd (load czero out k)
                         (cuComplexScalarMult (load 0 input n)
                            (cuComplexExponential exponent))))
                 out (seqZ 0 (Z.of_nat (length input))))
        out (seqZ 0 (Z.of_nat (length out))).

Definition idft_complex (input : list complex) : list complex :=
  let out := replicate (length input) czero in
  foldl (fun out k =>
           let out := store out k (makeComplex 0 0) in
           let out :=
             foldl (fun out n =>
                      let exponent :=
                        makeComplex 0
                          (2 * PI * IZR k * IZR n
                           / IZR (Z.of_nat (length input))) in
                      store out k
                        (cuCadd (load czero out k)
                           (cuCmul (load czero input n)
                              (cuComplexExponential exponent))))
                   out (seqZ 0 (Z.of_nat (length input))) in
           store out k
             (cuComplexScalarMult (1 / IZR (Z.of_nat (length out)))
                (load czero out k)))
        out (seqZ 0 (Z.of_nat (length out))).

Definition idft (input : list complex) : list R :=
  let ift := idft_complex input in
  let out := replicate (length ift) 0 in
  foldl (fun out i => store out i (cuCreal (load czero ift i)))
        out (seqZ 0 (Z.of_nat (length ift))).

(** [printPrices]: the value of [first_negative] that is printed. *)
Definition printPrices (prices : list R) : Z :=
  foldl (fun first_negative i =>
           if decide (first_negative = -1)%Z then
             if Rlt_dec (load 0 prices i) 0 then i else first_negative
           else first_negative)
        (-1)%Z (seqZ 0 (Z.of_nat (length prices))).

Section Reference.
Context `{Externals}.

(** The body of the loop of [computeCPU] over the frequencies. *)
Definition computeCPU_bin (params : Parameters) (ft : list complex)
    (idx : Z) (ft2 : list complex) : list complex :=
  let N := resolution params in
  let x_max := x_max params in
  let x_min := x_min params in
  let delta_frequency := IZR (N - 1) / (x_max - x_min) / IZR N in
  let from_time := 0 in
  let to_time := expiryTime params in
  let riskFreeRate := riskFreeRate params in
  let volatility := volatility params in
  let jumpMean := jumpMean params in
  let kappa := kappa params in
  let old_value := load czero ft idx in
  let m := if decide (idx <= N ÷ 2)%Z then IZR idx else IZR (idx - N) in
  let k := delta_frequency * m in
  let fst_term := volatility * PI * k in
  let psi_real := (-2 * fst_term * fst_term) - (riskFreeRate + jumpMean) in
  let psi_imag :=
    (riskFreeRate - jumpMean * kappa - volatility * volatility / 2) *
    (2 * PI * k) in
  let delta_tau := to_time - from_time in
  let exponent := makeComplex (psi_real * delta_tau) (psi_imag * delta_tau) in
  let exponential := cuComplexExponential exponent in
  let new_value := cuCmul old_value exponential in
  store ft2 idx new_value.

(** [computeCPU]: the printed price, or [None] as for [computeGPU]. *)
Definition computeCPU (params : Parameters) (assetPrices optionValues : list R)
    : option R :=
  let N := resolution params in
  let ft := dft optionValues in
  let ft2 := replicate (Z.to_nat N) czero in
  let ft2 :=
    foldl (fun ft2 idx => computeCPU_bin params ft idx ft2) ft2
          (seqZ 0 (Z.of_nat (length ft))) in
  let ift := idft ft2 in
  reportPrice params ift.

End Reference.

(** A put struck at 3 on a unit asset, on the two-point grid, with no time
    step left. *)
Definition expiredPut : Parameters := {|
  startPrice := 1;
  strikePrice := 3;
  riskFreeRate := 0;
  dividendRate := 0;
  volatility := 0;
  expiryTime := 1;
  resolution := 2;
  timesteps := 0;
  optionExerciseType := American;
  optionPayoffType := Put;
  jumpType := JumpType.None;
  jumpMean := 0;
  driftRate := 0;
  mertonNormalStdev := 0;
  kouUpJumpProbability := 0;
  kouUpRate := 0;
  kouDownRate := 0;
  CGMY_C := 0;
  CGMY_G := 0;
  CGMY_M := 0;
  CGMY_Y := 0
|}.

(** The call with the same strike on the same grid. *)
Definition expiredCall : Parameters := {|
  startPrice := 1;
  strikePrice := 3;
  riskFreeRate := 0;
  dividendRate := 0;
  volatility := 0;
  expiryTime := 1;
  resolution := 2;
  timesteps := 0;
  optionExerciseType := American;
  optionPayoffType := Call;
  jumpType := JumpType.None;
  jumpMean := 0;
  driftRate := 0;
  mertonNormalStdev := 0;
  kouUpJumpProbability := 0;
  kouUpRate := 0;
  kouDownRate := 0;
  CGMY_C := 0;
  CGMY_G := 0;
  CGMY_M := 0;
  CGMY_Y := 0
|}.

(** The jump transform that [computeGPU] prepares for a thread of signed
    frequency [m]: none without jumps, [prepareMertonJumpFT] or
    [prepareKouJumpFT] otherwise. *)
Definition jump_transform_at `{Externals} (params : Parameters) (m : R)
    : option complex :=
  match jumpType params with
  | JumpType.Merton =>
      Some (merton_at (delta_frequency params)
              (mertonNormalStdev params) (driftRate params) m)
  | JumpType.Kou =>
      Some (kou_at (delta_frequency params)
              (kouUpJumpProbability params) (kouUpRate params)
              (kouDownRate params) m)
  | _ => None
  end.

(** A Merton market on a four-point grid. *)
Definition mertonMarket : Parameters := {|
  startPrice := 1;
  strikePrice := 1;
  riskFreeRate := 1;
  dividendRate := 0;
  volatility := 1;
  expiryTime := 1;
  resolution := 4;
  timesteps := 1;
  optionExerciseType := European;
  optionPayoffType := Call;
  jumpType := JumpType.Merton;
  jumpMean := 2;
  driftRate := 1;
  mertonNormalStdev := 1;
  kouUpJumpProbability := 0;
  kouUpRate := 1;
  kouDownRate := 1;
  CGMY_C := 0;
  CGMY_G := 0;
  CGMY_M := 0;
  CGMY_Y := 0
|}.

(** Finite sums, used to state what the loops of the host transforms
    compute: [rsum f n] is [f 0 + ... + f (n-1)] and [cacc f c n] is [c]
    plus the complex numbers [f 0], ..., [f (n-1)], added in that order. *)
Fixpoint rsum (f : nat -> R) (n : nat) : R :=
  match n with
  | O => 0
  | S n => rsum f n + f n
  end.

Fixpoint cacc (f : Z -> complex) (c : complex) (n : nat) : complex :=
  match n with
  | O => c
  | S n => cuCadd (cacc f c n) (f (Z.of_nat n))
  end.

(** The terms that [dft] and [idft_complex] add up for output [k]. *)
Definition dft_term (input : list R) (k n : Z) : complex :=
  cuComplexScalarMult (load 0 input n)
    (cuComplexExponential
       (makeComplex 0
          (-2 * PI * IZR k * IZR n / IZR (Z.of_nat (length input))))).

Definition idft_term (input : list complex) (k n : Z) : complex :=
  cuCmul (load czero input n)
    (cuComplexExponential
       (makeComplex 0
          (2 * PI * IZR k * IZR n / IZR (Z.of_nat (length input))))).

(** The factor by which [computeCPU] multiplies bin [idx] of the transform:
    the exponential of [expiryTime] times the diffusion exponent, in which
    no dividend appears. *)
Definition cpu_propagator `{Externals} (params : Parameters) (idx : Z)
    : complex :=
  cuComplexExponential
    (cuComplexScalarMult (expiryTime params - 0)
       (diffusion_psi (riskFreeRate params) 0 (volatility params)
          (jumpMean params) (kappa params)
          (delta_frequency params
           * signed_frequency idx (resolution params)))).

(** The put struck at 3 priced at its expiry, on the two-point grid. *)
Definition maturedPut : Parameters := {|
  startPrice := 1;
  strikePrice := 3;
  riskFreeRate := 1;
  dividendRate := 0;
  volatility := 1;
  expiryTime := 0;
  resolution := 2;
  timesteps := 1;
  optionExerciseType := European;
  optionPayoffType := Put;
  jumpType := JumpType.None;
  jumpMean := 1;
  driftRate := 0;
  mertonNormalStdev := 0;
  kouUpJumpProbability := 0;
  kouUpRate := 0;
  kouDownRate := 0;
  CGMY_C := 0;
  CGMY_G := 0;
  CGMY_M := 0;
  CGMY_Y := 0
|}.

(** The array [ft2] of [computeCPU] at the end of its frequency loop. *)
Definition cpu_spectrum `{Externals} (params : Parameters)
    (optionValues : list R) : list complex :=
  foldl (fun ft2 idx => computeCPU_bin params (dft optionValues) idx ft2)
        (replicate (Z.to_nat (resolution params)) czero)
        (seqZ 0 (Z.of_nat (length (dft optionValues)))).

(** A CGMY market on a four-point grid. *)
Definition cgmyMarket : Parameters := {|
  startPrice := 1;
  strikePrice := 1;
  riskFreeRate := 1;
  dividendRate := 0;
  volatility := 1;
  expiryTime := 1;
  resolution := 4;
  timesteps := 1;
  optionExerciseType := European;
  optionPayoffType := Call;
  jumpType := JumpType.CGMY;
  jumpMean := 0;
  driftRate := 0;
  mertonNormalStdev := 0;
  kouUpJumpProbability := 0;
  kouUpRate := 1;
  kouDownRate := 1;
  CGMY_C := 1;
  CGMY_G := 2;
  CGMY_M := 3;
  CGMY_Y := 1 / 2
|}.

(** The externals for the run on [cgmyMarket]: the only value of [tgamma]
    that this run asks for is the one at [-1/2], which is [-2 sqrt(pi)]. *)
Definition cgmyExternals : Externals := {|
  x_min := λ _, 0;
  x_max := λ _, 1;
  kappa := λ _, 0;
  tgamma := λ _, -2 * sqrt PI;
  atan2 := atan2_ref;
  pow := Rpower;
  cufft_D2Z := dft_bin;
  cufft_Z2D := idft_sample;
  junk := λ _, czero
|}.

(** Externals whose [kappa()] varies with a jump-model parameter, the Merton
    drift, on the grid over [[0, 1]]. *)
Definition driftKappaExternals : Externals := {|
  x_min := λ _, 0;
  x_max := λ _, 1;
  kappa := λ p, driftRate p;
  tgamma := λ _, 1;
  atan2 := atan2_ref;
  pow := Rpower;
  cufft_D2Z := dft_bin;
  cufft_Z2D := idft_sample;
  junk := λ _, czero
|}.

(** * Properties *)

(** ** Arrays and launches *)

Section Arrays.
Context {A : Type}.
Implicit Types (a : list A) (idx : Z) (j : nat).

Lemma length_store a idx v : length (store a idx v) = length a.
Proof. unfold store. case_decide; [apply length_insert | done]. Qed.

Lemma lookup_store_ne a idx v j :
  Z.of_nat j ≠ idx → store a idx v !! j = a !! j.
Proof.
  intros Hne. unfold store. case_decide; [|done].
  apply list_lookup_insert_ne. lia.
Qed.

Lemma lookup_store_eq a v j : store a (Z.of_nat j) v !! j = (λ _, v) <$> a !! j.
Proof.
  unfold store. case_decide; [|lia]. rewrite Nat2Z.id.
  destruct (a !! j) as [w|] eqn:Hj; simpl.
  - apply list_lookup_insert_eq. by eapply lookup_lt_Some.
  - rewrite list_insert_ge; [done|]. by apply lookup_ge_None.
Qed.

Lemma load_of_nat d a j : load d a (Z.of_nat j) = default d (a !! j).
Proof. unfold load. case_decide; [|lia]. by rewrite Nat2Z.id. Qed.

Lemma pointwise_lookup d g kernel a i j :
  pointwise d g kernel →
  kernel (Z.of_nat i) a !! j =
    if decide (j = i) then g (Z.of_nat i) <$> a !! j else a !! j.
Proof.
  intros Hk. rewrite Hk. case_decide as Hij.
  - subst j. rewrite lookup_store_eq, load_of_nat.
    by destruct (a !! i).
  - apply lookup_store_ne. lia.
Qed.

Lemma foldl_pointwise_lookup_nat d g kernel (T : nat) a j :
  pointwise d g kernel →
  foldl (λ m idx, kernel idx m) a (seqZ 0 (Z.of_nat T)) !! j =
    if decide (j < T)%nat then g (Z.of_nat j) <$> a !! j else a !! j.
Proof.
  intros Hk. induction T as [|T IH].
  - rewrite seqZ_nil by lia. cbn [foldl]. case_decide; [lia|done].
  - rewrite seqZ_S, foldl_app. cbn [foldl]. rewrite Z.add_0_l.
    rewrite (pointwise_lookup d g kernel _ T j Hk), IH.
    repeat case_decide; try lia; try done. by subst.
Qed.

Lemma foldl_pointwise_lookup d g kernel (T : Z) a j :
  pointwise d g kernel →
  foldl (λ m idx, kernel idx m) a (seqZ 0 T) !! j =
    if decide (Z.of_nat j < T)%Z then g (Z.of_nat j) <$> a !! j else a !! j.
Proof.
  intros Hk. destruct (decide (0 ≤ T)%Z) as [HT|HT].
  - rewrite <- (Z2Nat.id T HT) at 1.
    rewrite (foldl_pointwise_lookup_nat d g kernel _ a j Hk).
    repeat case_decide; try lia; done.
  - rewrite seqZ_nil by lia. simpl. case_decide; [lia|done].
Qed.

Lemma foldl_pointwise_length d g kernel (l : list Z) a :
  pointwise d g kernel →
  length (foldl (λ m idx, kernel idx m) a l) = length a.
Proof.
  intros Hk. revert a. induction l as [|x l IH]; intros a; simpl; [done|].
  rewrite IH, Hk. apply length_store.
Qed.
End Arrays.

Lemma bind_singleton_fmap {A B : Type} (f : A → B) (l : list A) :
  (x ← l; [f x]) = f <$> l.
Proof. induction l as [|x l IH]; [done|]. rewrite bind_cons, fmap_cons, IH. done. Qed.

Lemma block_indices (c b : Z) :
  (threadIdx ← seqZ 0 b; [(c + threadIdx)%Z]) = seqZ c b.
Proof.
  rewrite bind_singleton_fmap. unfold seqZ.
  rewrite <- list_fmap_compose. apply list_fmap_ext.
  intros _ x _. simpl. lia.
Qed.

Lemma thread_indices_seqZ (gridDim blockDim : Z) :
  (0 ≤ gridDim)%Z →
  thread_indices gridDim blockDim = seqZ 0 (gridDim * blockDim).
Proof.
  intros Hg. unfold thread_indices.
  destruct (decide (0 < blockDim)%Z) as [Hb|Hb].
  - rewrite <- (Z2Nat.id gridDim Hg). generalize (Z.to_nat gridDim) as n.
    induction n as [|n IH].
    + done.
    + rewrite seqZ_S, bind_app, IH. simpl. rewrite app_nil_r.
      rewrite Z.add_0_l, block_indices.
      replace (Z.of_nat (S n) * blockDim)%Z
        with (Z.of_nat n * blockDim + blockDim)%Z by lia.
      rewrite seqZ_app by lia. by rewrite Z.add_0_l.
  - rewrite (seqZ_nil 0 (gridDim * blockDim)) by nia.
    rewrite (seqZ_nil 0 blockDim) by lia.
    induction (seqZ 0 gridDim) as [|x l IH]; simpl; done.
Qed.

Section Launch.
Context {A : Type}.

Lemma launch_lookup (d : A) g kernel gridDim blockDim (a : list A) j :
  pointwise d g kernel → (0 ≤ gridDim)%Z →
  launch gridDim blockDim kernel a !! j =
    if decide (Z.of_nat j < gridDim * blockDim)%Z
    then g (Z.of_nat j) <$> a !! j else a !! j.
Proof.
  intros Hk Hg. unfold launch. rewrite thread_indices_seqZ by done.
  by apply (foldl_pointwise_lookup d).
Qed.

Lemma launch_length (d : A) g kernel gridDim blockDim (a : list A) :
  pointwise d g kernel →
  length (launch gridDim blockDim kernel a) = length a.
Proof. intros Hk. unfold launch. by eapply foldl_pointwise_length. Qed.
End Launch.

(** ** Launch geometry *)

(** The launches [<<<max(N / MAX_BLOCK_SIZE, 1), min(N, MAX_BLOCK_SIZE)>>>]
    run exactly [N] threads when [N] is a power of two. *)
Lemma grid_covers_pow2 N :
  isPowerOfTwo N →
  (Z.max (N ÷ MAX_BLOCK_SIZE) 1 * Z.min N MAX_BLOCK_SIZE = N)%Z.
Proof.
  intros [k ->]. unfold MAX_BLOCK_SIZE.
  destruct (decide (k < 10)%nat) as [Hk|Hk].
  - assert (0 < 2 ^ Z.of_nat k < 1024)%Z as Hlt.
    { split; [apply Z.pow_pos_nonneg; lia|].
      change 1024%Z with (2 ^ 10)%Z. apply Z.pow_lt_mono_r; lia. }
    rewrite Z.quot_small by lia. lia.
  - replace (Z.of_nat k) with (Z.of_nat (k - 10) + 10)%Z by lia.
    rewrite Z.pow_add_r by lia. change (2 ^ 10)%Z with 1024%Z.
    rewrite Z.quot_mul by lia.
    pose proof (Z.pow_pos_nonneg 2 (Z.of_nat (k - 10))). lia.
Qed.

Lemma double_to_int_IZR (z : Z) : double_to_int (IZR z) = z.
Proof.
  unfold double_to_int. destruct (Rle_dec 0 (IZR z)).
  - apply ZfloorZ.
  - unfold Zceil. rewrite <- opp_IZR, ZfloorZ. lia.
Qed.

Lemma double_to_int_ceil x : double_to_int (ceil x) = Zceil x.
Proof. apply double_to_int_IZR. Qed.

(** The launch of [solveODE] runs at least [N/2+1] threads. *)
Lemma fourier_launch_covers N :
  (0 ≤ N ÷ 2)%Z →
  let fourier_size := (N ÷ 2 + 1)%Z in
  let fourier_block_count :=
    double_to_int (ceil (IZR fourier_size / IZR MAX_BLOCK_SIZE)) in
  let fourier_block_size := Z.min fourier_size MAX_BLOCK_SIZE in
  (0 ≤ fourier_block_count)%Z ∧
  (fourier_size ≤ fourier_block_count * fourier_block_size)%Z.
Proof.
  intros HN fs fbc fbs. subst fbc fbs.
  assert (1 ≤ fs)%Z as Hfs by (subst fs; lia).
  rewrite double_to_int_ceil. unfold MAX_BLOCK_SIZE.
  pose proof (Zceil_bound (IZR fs / 1024)) as [_ Hc].
  set (c := Zceil (IZR fs / 1024)) in *.
  assert (fs ≤ c * 1024)%Z as Hle.
  { apply le_IZR. rewrite mult_IZR. lra. }
  assert (1 ≤ c)%Z as Hc1 by lia.
  split; [lia|].
  destruct (Z.min_spec fs 1024) as [[_ ->]|[_ ->]]; nia.
Qed.

(** On a resolution that is a power of two the launch of [solveODE] stays
    within the [N] cells of [d_ft] and [d_characteristic]. *)
Lemma fourier_launch_within N :
  isPowerOfTwo N →
  let fourier_size := (N ÷ 2 + 1)%Z in
  let fourier_block_count :=
    double_to_int (ceil (IZR fourier_size / IZR MAX_BLOCK_SIZE)) in
  let fourier_block_size := Z.min fourier_size MAX_BLOCK_SIZE in
  (fourier_block_count * fourier_block_size ≤ N)%Z.
Proof.
  intros [k ->]. cbv zeta. rewrite double_to_int_ceil. unfold MAX_BLOCK_SIZE.
  destruct (decide (k ≤ 10)%nat) as [Hk|Hk].
  - assert (1 ≤ 2 ^ Z.of_nat k ≤ 1024)%Z as Hn.
    { split; [pose proof (Z.pow_pos_nonneg 2 (Z.of_nat k)); lia|].
      change 1024%Z with (2 ^ 10)%Z. apply Z.pow_le_mono_r; lia. }
    set (n := (2 ^ Z.of_nat k)%Z) in *.
    rewrite Z.quot_div_nonneg by lia.
    assert (1 ≤ n / 2 + 1 ≤ 513 ∧ n / 2 + 1 ≤ n)%Z as [Hfs Hle]
      by (Z.to_euclidean_division_equations; lia).
    rewrite (Zceil_eq 1).
    + lia.
    + destruct Hfs as [Hlo Hhi].
      apply IZR_le in Hlo. apply IZR_le in Hhi. lra.
  - replace (Z.of_nat k) with (Z.of_nat (k - 11) + 11)%Z by lia.
    rewrite Z.pow_add_r by lia. change (2 ^ 11)%Z with 2048%Z.
    pose proof (Z.pow_pos_nonneg 2 (Z.of_nat (k - 11))) as Hm.
    set (m := (2 ^ Z.of_nat (k - 11))%Z) in *.
    rewrite Z.quot_div_nonneg by lia.
    replace (m * 2048 / 2)%Z with (1024 * m)%Z
      by (Z.to_euclidean_division_equations; lia).
    rewrite (Zceil_eq (m + 1)).
    + lia.
    + rewrite !plus_IZR, mult_IZR.
      assert (1 <= IZR m) by (apply (IZR_le 1); lia). lra.
Qed.

(** ** The kernels are pointwise *)

Lemma solveODE_pointwise characteristic from_time to_time :
  pointwise czero
    (λ idx old,
       cuCmul old
         (cuComplexExponential
            (cuComplexScalarMult (to_time - from_time)
               (load czero characteristic idx))))
    (solveODE characteristic from_time to_time).
Proof. intros idx a. reflexivity. Qed.

Lemma normalize_pointwise length :
  pointwise 0 (λ _ v, v / IZR length) (normalize length).
Proof. intros idx a. reflexivity. Qed.

Lemma earlyExercise_pointwise startPrice strikePrice x_min delta_x type :
  pointwise 0
    (λ idx v,
       Rmax v (intrinsic startPrice strikePrice x_min delta_x type idx))
    (earlyExercise startPrice strikePrice x_min delta_x type).
Proof.
  intros idx a. unfold earlyExercise, intrinsic.
  case_decide as Ht; [by subst type|]. by destruct type.
Qed.

(** ** C1: the spectral propagator *)

(** C1.  The launch of [solveODE] made by the time loop replaces, for every
    frequency bin [idx] in [0, N/2], the old value of [ft[idx]] by
    [old * exp((to_time - from_time) * psi)], where [psi] is
    [characteristic[idx]] and [exp(a + bi) = e^a (cos b + i sin b)]; the
    result is written to the same cell of the same array, whose length is
    unchanged. *)
Theorem solveODE_propagates (N : Z) (characteristic ft : list complex)
    (from_time to_time : R) (idx : Z) (old psi : complex) :
  (0 ≤ idx ≤ N ÷ 2)%Z →
  ft !! Z.to_nat idx = Some old →
  characteristic !! Z.to_nat idx = Some psi →
  let fourier_size := (N ÷ 2 + 1)%Z in
  let fourier_block_count :=
    double_to_int (ceil (IZR fourier_size / IZR MAX_BLOCK_SIZE)) in
  let fourier_block_size := Z.min fourier_size MAX_BLOCK_SIZE in
  let ft' :=
    launch fourier_block_count fourier_block_size
      (solveODE characteristic from_time to_time) ft in
  let a := (to_time - from_time) * cuCreal psi in
  let b := (to_time - from_time) * cuCimag psi in
  ft' !! Z.to_nat idx =
    Some (cuCmul old (makeComplex (exp a * cos b) (exp a * sin b)))
  ∧ length ft' = length ft.
Proof.
  intros Hidx Hold Hpsi fs fbc fbs ft' a b. subst fs fbc fbs ft' a b.
  pose proof (fourier_launch_covers N ltac:(lia)) as Hcov.
  cbv zeta in Hcov. destruct Hcov as [Hc Hcover].
  split; [|by eapply launch_length, solveODE_pointwise].
  erewrite launch_lookup by (apply solveODE_pointwise || done).
  rewrite Z2Nat.id by lia.
  set (threads := (double_to_int _ * _)%Z) in *.
  set (half := (N ÷ 2)%Z) in *. clearbody threads half.
  rewrite decide_True by lia.
  rewrite Hold. unfold load. rewrite decide_True by lia.
  by rewrite Hpsi.
Qed.

Lemma solveODE_propagates_witness :
  (0 ≤ 1 ≤ 2 ÷ 2)%Z ∧
  [makeComplex 3 4; makeComplex 1 2] !! Z.to_nat 1 = Some (makeComplex 1 2) ∧
  [czero; makeComplex (-1) 0] !! Z.to_nat 1 = Some (makeComplex (-1) 0) ∧
  launch (double_to_int (ceil (IZR (2 ÷ 2 + 1) / IZR MAX_BLOCK_SIZE)))
         (Z.min (2 ÷ 2 + 1) MAX_BLOCK_SIZE)
         (solveODE [czero; makeComplex (-1) 0] 0 1)
         [makeComplex 3 4; makeComplex 1 2] !! Z.to_nat 1 =
    Some (cuCmul (makeComplex 1 2)
            (makeComplex (exp ((1 - 0) * -1) * cos ((1 - 0) * 0))
                         (exp ((1 - 0) * -1) * sin ((1 - 0) * 0)))).
Proof.
  assert (0 ≤ 1 ≤ 2 ÷ 2)%Z as Hidx by (change (2 ÷ 2)%Z with 1%Z; lia).
  split; [exact Hidx|]. split; [reflexivity|]. split; [reflexivity|].
  apply (solveODE_propagates 2 [czero; makeComplex (-1) 0]
           [makeComplex 3 4; makeComplex 1 2] 0 1 1
           (makeComplex 1 2) (makeComplex (-1) 0));
    [exact Hidx | reflexivity | reflexivity].
Defined.

(** ** The characteristic exponent providers *)

Lemma diffusion_psi_no_intensity r q sigma kap k :
  diffusion_psi r q sigma 0 kap k = NoJump_psi_spec sigma r q k.
Proof. unfold diffusion_psi, NoJump_psi_spec. f_equal; field. Qed.

Lemma prepareJumpModelCharacteristic_null_pointwise r q sigma lam kap dfreq N :
  pointwise czero
    (λ idx _, diffusion_psi r q sigma lam kap (dfreq * signed_frequency idx N))
    (prepareJumpModelCharacteristic None r q sigma lam kap dfreq N).
Proof. intros idx a. reflexivity. Qed.

Section Providers.
Context `{Externals}.

Lemma lookup_cudaMalloc (n : Z) (j : nat) :
  cudaMalloc n !! j =
    if decide (Z.of_nat j < n)%Z then Some (junk (Z.of_nat j)) else None.
Proof.
  unfold cudaMalloc. rewrite list_lookup_fmap. case_decide.
  - rewrite lookup_seqZ_lt by done. by rewrite Z.add_0_l.
  - rewrite lookup_seqZ_ge by lia. done.
Qed.

Lemma length_cudaMalloc (n : Z) : length (cudaMalloc n) = Z.to_nat n.
Proof. unfold cudaMalloc. by rewrite length_fmap, length_seqZ. Qed.

(** With the selector [None] no jump transform is allocated and
    [prepareJumpModelCharacteristic] is launched with a null [jump_ft]. *)
Lemma characteristicOf_None (params : Parameters) :
  jumpType params = JumpType.None →
  characteristicOf params =
    launch (Z.max (resolution params ÷ MAX_BLOCK_SIZE) 1)
           (Z.min (resolution params) MAX_BLOCK_SIZE)
           (prepareJumpModelCharacteristic None
              (riskFreeRate params) (dividendRate params)
              (volatility params) (jumpMean params) (kappa params)
              (delta_frequency params) (resolution params))
           (cudaMalloc (resolution params)).
Proof.
  intros Hjt. unfold characteristicOf. rewrite Hjt. cbv zeta.
  rewrite decide_False by done.
  by rewrite (decide_False (P := JumpType.None ≠ JumpType.None)) by tauto.
Qed.

Lemma length_characteristicOf_None (params : Parameters) :
  jumpType params = JumpType.None →
  length (characteristicOf params) = Z.to_nat (resolution params).
Proof.
  intros Hjt. rewrite characteristicOf_None by done.
  erewrite launch_length
    by apply prepareJumpModelCharacteristic_null_pointwise.
  apply length_cudaMalloc.
Qed.

(** With the selector [None] and a power of two as resolution, cell
    [idx < N] of [d_characteristic] holds the diffusion exponent, in which
    the jump intensity [jumpMean] and [kappa()] still appear. *)
Lemma characteristicOf_None_lookup (params : Parameters) (idx : Z) :
  jumpType params = JumpType.None →
  isPowerOfTwo (resolution params) →
  (0 ≤ idx < resolution params)%Z →
  characteristicOf params !! Z.to_nat idx =
    Some (diffusion_psi (riskFreeRate params) (dividendRate params)
            (volatility params) (jumpMean params) (kappa params)
            (delta_frequency params
             * signed_frequency idx (resolution params))).
Proof.
  intros Hjt Hpow Hidx. rewrite characteristicOf_None by done.
  erewrite launch_lookup
    by (apply prepareJumpModelCharacteristic_null_pointwise || lia).
  rewrite grid_covers_pow2 by done.
  rewrite Z2Nat.id by lia. rewrite decide_True by lia.
  rewrite lookup_cudaMalloc, Z2Nat.id by lia.
  by rewrite decide_True by lia.
Qed.
End Providers.

Lemma isPowerOfTwo_2 : isPowerOfTwo 2.
Proof. by exists 1%nat. Qed.

(** ** C2: the No-Jump characteristic exponent *)

(** C2, as the specification states it, fails: with the selector [None] and
    jump intensity 1 the exponent stored for bin 0 is [-1], where the
    No-Jump formula gives 0. *)
Lemma NoJump_psi_depends_on_jumpMean :
  jumpType (flatMarket European 1 0) = JumpType.None ∧
  characteristicOf (H := referenceExternals 0 1 0) (flatMarket European 1 0)
    !! Z.to_nat 0 = Some (makeComplex (-1) 0) ∧
  NoJump_psi_spec 0 0 0
    (delta_frequency (H := referenceExternals 0 1 0) (flatMarket European 1 0)
     * signed_frequency 0 2) = makeComplex 0 0 ∧
  makeComplex (-1) 0 ≠ makeComplex 0 0.
Proof.
  split; [done|]. split; [|split].
  - rewrite characteristicOf_None_lookup;
      [|done|apply isPowerOfTwo_2|simpl; lia].
    unfold diffusion_psi. simpl. apply (f_equal Some).
    apply (f_equal2 makeComplex); field.
  - unfold NoJump_psi_spec. apply (f_equal2 makeComplex); field.
  - intros [= Hre]. lra.
Qed.

Section NoJump.
Context `{Externals}.

(** C2 (amended).  With the selector [None] and a power of two as
    resolution, the exponent stored for bin [idx], of frequency
    [k = delta_frequency * m], is
    [-2 (sigma pi k)^2 - (r + lambda) + i (r - q - lambda kappa - sigma^2/2) (2 pi k)]
    where [lambda] is the jump intensity [jumpMean] and [kappa] the value of
    [kappa()]; it is the No-Jump formula of the specification when the
    intensity is zero. *)
Theorem NoJump_characteristic (params : Parameters) (idx : Z) :
  jumpType params = JumpType.None →
  isPowerOfTwo (resolution params) →
  (0 ≤ idx < resolution params)%Z →
  let sigma := volatility params in
  let r := riskFreeRate params in
  let q := dividendRate params in
  let lambda := jumpMean params in
  let k := delta_frequency params * signed_frequency idx (resolution params) in
  characteristicOf params !! Z.to_nat idx =
    Some (makeComplex
            (-2 * (sigma * PI * k) ^ 2 - (r + lambda))
            ((r - q - lambda * kappa params - sigma ^ 2 / 2) * (2 * PI * k)))
  ∧ (lambda = 0 →
     characteristicOf params !! Z.to_nat idx =
       Some (NoJump_psi_spec sigma r q k)).
Proof.
  intros Hjt Hpow Hidx sigma r q lambda k.
  rewrite characteristicOf_None_lookup by done.
  fold sigma r q lambda k. split.
  - apply (f_equal Some). unfold diffusion_psi.
    apply (f_equal2 makeComplex); field.
  - intros ->. by rewrite diffusion_psi_no_intensity.
Qed.
End NoJump.

Lemma NoJump_characteristic_witness :
  jumpType (flatMarket European 1 0) = JumpType.None ∧
  isPowerOfTwo (resolution (flatMarket European 1 0)) ∧
  (0 ≤ 1 < resolution (flatMarket European 1 0))%Z ∧
  characteristicOf (H := referenceExternals 0 1 0) (flatMarket European 1 0)
    !! Z.to_nat 1 =
    Some (makeComplex
            (-2 * (0 * PI
                   * (delta_frequency (H := referenceExternals 0 1 0)
                        (flatMarket European 1 0) * signed_frequency 1 2)) ^ 2
             - (0 + 1))
            ((0 - 0 - 1 * 0 - 0 ^ 2 / 2)
             * (2 * PI
                * (delta_frequency (H := referenceExternals 0 1 0)
                     (flatMarket European 1 0) * signed_frequency 1 2)))).
Proof.
  split; [reflexivity|]. split; [apply isPowerOfTwo_2|].
  split; [simpl; lia|].
  apply (NoJump_characteristic (H := referenceExternals 0 1 0)
           (flatMarket European 1 0) 1);
    [reflexivity | apply isPowerOfTwo_2 | simpl; lia].
Defined.

(** ** C3: the early-exercise projector *)

Section Projector.
Context `{Externals}.

Lemma cufftExecZ2D_pointwise N idata :
  pointwise 0
    (λ n _, cufft_Z2D N (take (Z.to_nat (N ÷ 2 + 1)) idata) n)
    (λ n o, store o n (cufft_Z2D N (take (Z.to_nat (N ÷ 2 + 1)) idata) n)).
Proof. intros idx a. reflexivity. Qed.

Lemma cufftExecD2Z_pointwise N idata :
  pointwise czero (λ k _, cufft_D2Z N idata k)
    (λ k o, store o k (cufft_D2Z N idata k)).
Proof. intros idx a. reflexivity. Qed.

Lemma length_propagate params d_characteristic d_prices d_ft i :
  length (propagate params d_characteristic (d_prices, d_ft) i).1
    = length d_prices ∧
  length (propagate params d_characteristic (d_prices, d_ft) i).2
    = length d_ft.
Proof.
  unfold propagate. cbn [fst snd]. split.
  - erewrite launch_length by apply normalize_pointwise.
    unfold cufftExecZ2D.
    by erewrite foldl_pointwise_length by apply cufftExecZ2D_pointwise.
  - erewrite launch_length by apply solveODE_pointwise.
    unfold cufftExecD2Z.
    by erewrite foldl_pointwise_length by apply cufftExecD2Z_pointwise.
Qed.

(** C3.  In a time step the projector runs exactly when the option is
    American: otherwise the step ends with the normalised prices.  When
    it runs (the resolution being a power of two), every grid point
    [idx < N] goes from [v] to [max(v, intrinsic)], with
    [S = startPrice * exp(x_min + idx * delta_x)] and the intrinsic value
    [max(S - K, 0)] for a call and [max(K - S, 0)] for a put; the arrays
    keep their lengths, and thread [idx] changes no other cell. *)
Theorem earlyExercise_projection (params : Parameters)
    (d_characteristic : list complex) (st : list R * list complex) (i : Z) :
  isPowerOfTwo (resolution params) →
  let before := propagate params d_characteristic st i in
  let after := timestep params d_characteristic st i in
  (optionExerciseType params ≠ American → after = before) ∧
  (optionExerciseType params = American →
     after.2 = before.2 ∧ length after.1 = length before.1 ∧
     ∀ (idx : Z) (v : R),
       (0 ≤ idx < resolution params)%Z →
       before.1 !! Z.to_nat idx = Some v →
       after.1 !! Z.to_nat idx =
         Some (Rmax v
                 (intrinsic (startPrice params) (strikePrice params)
                    (x_min params) (delta_x params)
                    (optionPayoffType params) idx))) ∧
  (∀ (idx : Z) (ft : list R) (j : nat),
     Z.of_nat j ≠ idx →
     earlyExercise (startPrice params) (strikePrice params)
       (x_min params) (delta_x params) (optionPayoffType params) idx ft !! j
     = ft !! j).
Proof.
  intros Hpow before after. subst before after. unfold timestep.
  destruct (propagate params d_characteristic st i) as [d_prices d_ft].
  cbv zeta. split; [|split].
  - intros Hne. by rewrite decide_False.
  - intros Ham. rewrite decide_True by done. cbn [fst snd].
    split; [done|]. split.
    + by erewrite launch_length by apply earlyExercise_pointwise.
    + intros idx v Hidx Hv.
      erewrite launch_lookup by (apply earlyExercise_pointwise || lia).
      rewrite grid_covers_pow2 by done.
      rewrite Z2Nat.id by lia. rewrite decide_True by lia.
      by rewrite Hv.
  - intros idx ft j Hne. rewrite earlyExercise_pointwise.
    by apply lookup_store_ne.
Qed.
End Projector.

Lemma earlyExercise_projection_witness :
  isPowerOfTwo (resolution (flatMarket American 0 0)) ∧
  (optionExerciseType (flatMarket American 0 0) = American →
   (timestep (H := referenceExternals 0 1 0) (flatMarket American 0 0)
      [czero; czero] ([1; 2], [czero; czero]) 0).2
   = (propagate (H := referenceExternals 0 1 0) (flatMarket American 0 0)
        [czero; czero] ([1; 2], [czero; czero]) 0).2 ∧
   length (timestep (H := referenceExternals 0 1 0) (flatMarket American 0 0)
             [czero; czero] ([1; 2], [czero; czero]) 0).1
   = length (propagate (H := referenceExternals 0 1 0) (flatMarket American 0 0)
               [czero; czero] ([1; 2], [czero; czero]) 0).1 ∧
   ∀ (idx : Z) (v : R),
     (0 ≤ idx < resolution (flatMarket American 0 0))%Z →
     (propagate (H := referenceExternals 0 1 0) (flatMarket American 0 0)
        [czero; czero] ([1; 2], [czero; czero]) 0).1 !! Z.to_nat idx = Some v →
     (timestep (H := referenceExternals 0 1 0) (flatMarket American 0 0)
        [czero; czero] ([1; 2], [czero; czero]) 0).1 !! Z.to_nat idx =
       Some (Rmax v
               (intrinsic 1 0 0
                  (delta_x (H := referenceExternals 0 1 0)
                     (flatMarket American 0 0))
                  Call idx))).
Proof.
  split; [apply isPowerOfTwo_2|].
  exact (proj1 (proj2
    (earlyExercise_projection (H := referenceExternals 0 1 0)
       (flatMarket American 0 0) [czero; czero] ([1; 2], [czero; czero]) 0
       isPowerOfTwo_2))).
Defined.

(** ** C7: the projector is idempotent *)

Lemma Rmax_absorb (v p : R) : Rmax (Rmax v p) p = Rmax v p.
Proof. unfold Rmax. repeat destruct (Rle_dec _ _); lra. Qed.

(** C7.  Launching the projector a second time on its own output changes
    nothing, whatever the price field, the prices, the grid offsets, the
    payoff type and the size of the launch. *)
Theorem earlyExercise_idempotent (N : Z) (startPrice strikePrice x_min delta_x : R)
    (type : OptionPayoffType) (ft : list R) :
  let project :=
    launch (Z.max (N ÷ MAX_BLOCK_SIZE) 1) (Z.min N MAX_BLOCK_SIZE)
      (earlyExercise startPrice strikePrice x_min delta_x type) in
  project (project ft) = project ft.
Proof.
  intros project. subst project. apply list_eq. intros j.
  erewrite !launch_lookup by (apply earlyExercise_pointwise || lia).
  case_decide; [|done].
  destruct (ft !! j) as [v|]; [|done]. simpl.
  by rewrite Rmax_absorb.
Qed.

(** ** C9 and C10: the payoff initializer *)

Section Payoff.
Context `{Externals}.

Lemma assetPricesAtPayoff_lookup (prms : Parameters) (i : Z) :
  (0 ≤ i < resolution prms)%Z →
  assetPricesAtPayoff prms !! Z.to_nat i =
    Some (startPrice prms
          * exp (x_min prms
                 + IZR i * ((x_max prms - x_min prms)
                            / (IZR (resolution prms) - 1)))).
Proof.
  intros Hi. unfold assetPricesAtPayoff. cbv zeta.
  erewrite (foldl_pointwise_lookup 0
              (λ i _, startPrice prms
                      * exp (x_min prms
                             + IZR i * ((x_max prms - x_min prms)
                                        / (IZR (resolution prms) - 1)))))
    by (intros idx a; reflexivity).
  rewrite Z2Nat.id by lia. rewrite decide_True by lia.
  rewrite lookup_replicate_2 by lia. done.
Qed.

Lemma optionValuesAtPayoff_lookup (prms : Parameters) (assetPrices : list R)
    (j : nat) (v : R) :
  optionValuesAtPayoff prms assetPrices !! j = Some v →
  v = 0 ∨ ∃ x, v = Rmax x 0.
Proof.
  unfold optionValuesAtPayoff. cbv zeta.
  erewrite (foldl_pointwise_lookup 0
              (λ i _, if decide (optionPayoffType prms = Call)
                      then Rmax (load 0 assetPrices i - strikePrice prms) 0
                      else Rmax (strikePrice prms - load 0 assetPrices i) 0))
    by (intros idx a; by case_decide).
  case_decide.
  - destruct (replicate _ _ !! j); [|done]. simpl. intros [= <-].
    right. case_decide; eauto.
  - intros [-> _]%lookup_replicate_1. by left.
Qed.

(** C9.  Every entry of the payoff is non-negative, and so is every entry
    of a price field of resolution [N] (a power of two) after the projector
    has run on it, whatever the field held before. *)
Theorem prices_nonnegative (prms : Parameters) (assetPrices ft : list R) :
  isPowerOfTwo (resolution prms) →
  length ft = Z.to_nat (resolution prms) →
  Forall (λ v, 0 <= v) (optionValuesAtPayoff prms assetPrices) ∧
  Forall (λ v, 0 <= v)
    (launch (Z.max (resolution prms ÷ MAX_BLOCK_SIZE) 1)
            (Z.min (resolution prms) MAX_BLOCK_SIZE)
            (earlyExercise (startPrice prms) (strikePrice prms)
               (x_min prms) (delta_x prms) (optionPayoffType prms))
            ft).
Proof.
  intros Hpow Hlen. split; apply Forall_lookup; intros j v Hv.
  - apply optionValuesAtPayoff_lookup in Hv as [->|[x ->]]; [lra|].
    apply Rmax_r.
  - revert Hv.
    erewrite launch_lookup by (apply earlyExercise_pointwise || lia).
    rewrite grid_covers_pow2 by done.
    case_decide as Hj.
    + destruct (ft !! j) as [w|]; [|done]. simpl. intros [= <-].
      eapply Rle_trans; [|apply Rmax_r].
      unfold intrinsic. destruct (optionPayoffType prms); apply Rmax_r.
    + intros Hv%lookup_lt_Some. lia.
Qed.

(** C10.  With a positive start price, [x_max > x_min] and at least two
    grid points, the asset prices grow strictly with the grid index. *)
Theorem assetPrices_increasing (prms : Parameters) (i : Z) :
  0 < startPrice prms →
  x_min prms < x_max prms →
  (2 ≤ resolution prms)%Z →
  (0 ≤ i < resolution prms - 1)%Z →
  ∃ s_i s_next,
    assetPricesAtPayoff prms !! Z.to_nat i = Some s_i ∧
    assetPricesAtPayoff prms !! Z.to_nat (i + 1) = Some s_next ∧
    s_i < s_next.
Proof.
  intros HS Hx HN Hi. eexists _, _.
  split; [apply assetPricesAtPayoff_lookup; lia|].
  split; [apply assetPricesAtPayoff_lookup; lia|].
  apply Rmult_lt_compat_l; [done|]. apply exp_increasing.
  apply Rplus_lt_compat_l.
  assert (0 < (x_max prms - x_min prms) / (IZR (resolution prms) - 1)).
  { apply Rdiv_lt_0_compat; [lra|].
    apply (IZR_le 2) in HN. lra. }
  rewrite plus_IZR. nra.
Qed.

(** ** C5: the grid scalars *)

(** C5.  For a resolution [N >= 2] that is a power of two,
    [delta_x = (x_max - x_min) / (N - 1)],
    [delta_frequency = (N - 1) / ((x_max - x_min) * N)] and
    [x_min + (N - 1) * delta_x = x_max]. *)
Theorem grid_scalars (params : Parameters) :
  isPowerOfTwo (resolution params) →
  (2 ≤ resolution params)%Z →
  let N := IZR (resolution params) in
  delta_x params = (x_max params - x_min params) / (N - 1) ∧
  delta_frequency params = (N - 1) / ((x_max params - x_min params) * N) ∧
  x_min params + (N - 1) * delta_x params = x_max params.
Proof.
  intros _ HN N. unfold delta_x, delta_frequency. cbv zeta.
  rewrite minus_IZR. fold N.
  assert (N - 1 ≠ 0) as HN1.
  { apply (IZR_le 2) in HN. subst N. lra. }
  split; [done|]. split.
  - unfold Rdiv. rewrite Rinv_mult. ring.
  - by field.
Qed.
End Payoff.

Lemma prices_nonnegative_witness :
  isPowerOfTwo (resolution (flatMarket American 0 0)) ∧
  length [-1; 3] = Z.to_nat (resolution (flatMarket American 0 0)) ∧
  Forall (λ v, 0 <= v)
    (optionValuesAtPayoff (flatMarket American 0 0) [1; 2]) ∧
  Forall (λ v, 0 <= v)
    (launch (Z.max (resolution (flatMarket American 0 0) ÷ MAX_BLOCK_SIZE) 1)
            (Z.min (resolution (flatMarket American 0 0)) MAX_BLOCK_SIZE)
            (earlyExercise 1 0 0
               (delta_x (H := referenceExternals 0 1 0) (flatMarket American 0 0))
               Call)
            [-1; 3]).
Proof.
  split; [apply isPowerOfTwo_2|]. split; [reflexivity|].
  apply (prices_nonnegative (H := referenceExternals 0 1 0)
           (flatMarket American 0 0) [1; 2] [-1; 3]);
    [apply isPowerOfTwo_2 | reflexivity].
Defined.

Lemma assetPrices_increasing_witness :
  0 < startPrice (flatMarket European 0 0) ∧
  x_min (Externals := referenceExternals 0 1 0) (flatMarket European 0 0)
    < x_max (Externals := referenceExternals 0 1 0) (flatMarket European 0 0) ∧
  (2 ≤ resolution (flatMarket European 0 0))%Z ∧
  (0 ≤ 0 < resolution (flatMarket European 0 0) - 1)%Z ∧
  ∃ s_i s_next,
    assetPricesAtPayoff (H := referenceExternals 0 1 0)
      (flatMarket European 0 0) !! Z.to_nat 0 = Some s_i ∧
    assetPricesAtPayoff (H := referenceExternals 0 1 0)
      (flatMarket European 0 0) !! Z.to_nat (0 + 1) = Some s_next ∧
    s_i < s_next.
Proof.
  assert (0 < startPrice (flatMarket European 0 0)) as HS by (simpl; lra).
  assert (x_min (Externals := referenceExternals 0 1 0) (flatMarket European 0 0)
          < x_max (Externals := referenceExternals 0 1 0)
              (flatMarket European 0 0)) as Hx by (simpl; lra).
  assert (2 ≤ resolution (flatMarket European 0 0))%Z as HN by (simpl; lia).
  assert (0 ≤ 0 < resolution (flatMarket European 0 0) - 1)%Z as Hi
    by (simpl; lia).
  split; [exact HS|]. split; [exact Hx|]. split; [exact HN|].
  split; [exact Hi|].
  exact (assetPrices_increasing (H := referenceExternals 0 1 0)
           (flatMarket European 0 0) 0 HS Hx HN Hi).
Defined.

Lemma grid_scalars_witness :
  isPowerOfTwo (resolution (flatMarket European 0 0)) ∧
  (2 ≤ resolution (flatMarket European 0 0))%Z ∧
  delta_x (H := referenceExternals 0 1 0) (flatMarket European 0 0)
    = (1 - 0) / (IZR 2 - 1) ∧
  delta_frequency (H := referenceExternals 0 1 0) (flatMarket European 0 0)
    = (IZR 2 - 1) / ((1 - 0) * IZR 2) ∧
  0 + (IZR 2 - 1)
      * delta_x (H := referenceExternals 0 1 0) (flatMarket European 0 0) = 1.
Proof.
  assert (2 ≤ resolution (flatMarket European 0 0))%Z as HN by (simpl; lia).
  split; [apply isPowerOfTwo_2|]. split; [exact HN|].
  exact (grid_scalars (H := referenceExternals 0 1 0)
           (flatMarket European 0 0) isPowerOfTwo_2 HN).
Defined.

(** ** C6: the reported price *)

Section Finalization.
Context `{Externals}.

Lemma length_timestep params d_characteristic st i :
  length (timestep params d_characteristic st i).1 = length st.1.
Proof.
  destruct st as [d_prices d_ft].
  pose proof (length_propagate params d_characteristic d_prices d_ft i)
    as [Hlen _].
  unfold timestep. cbv zeta.
  destruct (propagate params d_characteristic (d_prices, d_ft) i)
    as [p f].
  cbn [fst snd] in *. case_decide; [|done].
  by erewrite launch_length by apply earlyExercise_pointwise.
Qed.

Lemma length_steps params d_characteristic (steps : list Z) st :
  length (foldl (timestep params d_characteristic) st steps).1
  = length st.1.
Proof.
  revert st. induction steps as [|i steps IH]; intros st; [done|].
  cbn [foldl]. by rewrite IH, length_timestep.
Qed.

(** When [optionValues] has [N] entries, as in [main], the host copy
    [initialValues] is the price field left by the time loop. *)
Lemma initialValues_copy params d_characteristic optionValues :
  length optionValues = Z.to_nat (resolution params) →
  let d_prices := (timeLoop params d_characteristic optionValues).1 in
  d_prices ++ drop (length d_prices) (replicate (length optionValues) 0)
  = d_prices.
Proof.
  intros Hlen d_prices. subst d_prices. unfold timeLoop. cbv zeta.
  rewrite length_steps. cbn [fst].
  rewrite length_take_ge by lia.
  rewrite drop_ge by (rewrite length_replicate; lia).
  apply app_nil_r.
Qed.

End Finalization.



(** ** C8: the No-Jump price and the jump-model parameters *)

Section Independence.
Context `{Externals}.

(** C8 (amended).  Two runs with the selector [None] that agree on the
    shared pricing parameters and on the jump intensity [jumpMean] report
    the same price, whatever the Merton, Kou and CGMY parameters of either
    run, provided that [kappa()] returns the same value in both when the
    intensity is not zero: the code reads [kappa()] only in the product
    [jumpMean * kappa], so that with a zero intensity nothing is asked of
    it.  [x_min()] and [x_max()] are functions of the resolution, the
    volatility, the expiry and the risk-free rate, as the specification
    says of its Grid Builder. *)
Theorem NoJump_price_independent (p1 p2 : Parameters) :
  grid_bounds_from_shared →
  jumpType p1 = JumpType.None →
  jumpType p2 = JumpType.None →
  shared_parameters_agree p1 p2 →
  jumpMean p1 = jumpMean p2 →
  (jumpMean p1 ≠ 0 → kappa p1 = kappa p2) →
  main p1 = main p2.
Proof.
  intros Hgrid Hj1 Hj2
    (HS & HK & Hr & Hq & Hsig & HT & HN & Hts & Hex & Hpay) Hlam Hkap.
  destruct (Hgrid p1 p2 HN Hsig HT Hr) as [Hmin Hmax].
  assert (jumpMean p1 * kappa p1 = jumpMean p2 * kappa p2) as Hprod.
  { destruct (Req_dec_T (jumpMean p1) 0) as [H0|Hne].
    - rewrite <- Hlam, H0. ring.
    - by rewrite <- Hlam, Hkap. }
  assert (characteristicOf p1 = characteristicOf p2) as Hchar.
  { rewrite !characteristicOf_None by done. unfold delta_frequency.
    rewrite Hmin, Hmax, HN. apply list_eq. intros j.
    erewrite !launch_lookup
      by (apply prepareJumpModelCharacteristic_null_pointwise || lia).
    case_decide; [|done].
    destruct (cudaMalloc (resolution p2) !! j); [|done].
    cbn [fmap option_fmap option_map]. f_equal.
    unfold diffusion_psi. by rewrite Hprod, Hr, Hq, Hsig, Hlam. }
  unfold main, computeGPU. cbv zeta. rewrite Hchar.
  unfold reportPrice, timeLoop, timestep, propagate, assetPricesAtPayoff,
    optionValuesAtPayoff, delta_x.
  rewrite HS, HK, HT, HN, Hts, Hex, Hpay, Hmin, Hmax.
  reflexivity.
Qed.
End Independence.

Lemma shared_parameters_agree_flat (lam1 drift1 lam2 drift2 : R) :
  shared_parameters_agree (flatMarket European lam1 drift1)
                          (flatMarket European lam2 drift2).
Proof. repeat split. Qed.

Lemma grid_bounds_from_shared_driftKappa :
  grid_bounds_from_shared (H := driftKappaExternals).
Proof. intros p1 p2 _ _ _ _. split; reflexivity. Qed.

Lemma driftKappa_differs :
  kappa (Externals := driftKappaExternals) (flatMarket European 0 0)
  ≠ kappa (Externals := driftKappaExternals) (flatMarket European 0 5).
Proof. simpl. lra. Qed.

Lemma NoJump_price_independent_witness :
  grid_bounds_from_shared (H := driftKappaExternals) ∧
  jumpType (flatMarket European 0 0) = JumpType.None ∧
  jumpType (flatMarket European 0 5) = JumpType.None ∧
  shared_parameters_agree (flatMarket European 0 0) (flatMarket European 0 5) ∧
  jumpMean (flatMarket European 0 0) = jumpMean (flatMarket European 0 5) ∧
  kappa (Externals := driftKappaExternals) (flatMarket European 0 0)
    ≠ kappa (Externals := driftKappaExternals) (flatMarket European 0 5) ∧
  main (H := driftKappaExternals) (flatMarket European 0 0)
  = main (H := driftKappaExternals) (flatMarket European 0 5).
Proof.
  split; [exact grid_bounds_from_shared_driftKappa|].
  split; [reflexivity|]. split; [reflexivity|].
  split; [apply shared_parameters_agree_flat|].
  split; [reflexivity|]. split; [exact driftKappa_differs|].
  exact (NoJump_price_independent (H := driftKappaExternals)
           (flatMarket European 0 0) (flatMarket European 0 5)
           grid_bounds_from_shared_driftKappa eq_refl eq_refl
           (shared_parameters_agree_flat 0 0 0 5) eq_refl
           (λ Hne, False_ind _ (Hne eq_refl))).
Defined.

(** *** A run on the two-point grid, evaluated *)

Lemma store_0 {A : Type} (x v : A) (l : list A) : store (x :: l) 0 v = v :: l.
Proof. reflexivity. Qed.

Lemma store_1 {A : Type} (x y v : A) (l : list A) :
  store (x :: y :: l) 1 v = x :: v :: l.
Proof. reflexivity. Qed.

Lemma load_0 {A : Type} (d x : A) (l : list A) : load d (x :: l) 0 = x.
Proof. reflexivity. Qed.

Lemma load_1 {A : Type} (d x y : A) (l : list A) : load d (x :: y :: l) 1 = y.
Proof. reflexivity. Qed.

Lemma fourier_blocks_2 :
  double_to_int (ceil (IZR (2 ÷ 2 + 1) / IZR MAX_BLOCK_SIZE)) = 1%Z.
Proof.
  rewrite double_to_int_ceil. apply Zceil_eq.
  change (2 ÷ 2 + 1)%Z with 2%Z. unfold MAX_BLOCK_SIZE. lra.
Qed.

Lemma dft_bin_2_0 (v0 v1 : R) : dft_bin 2 [v0; v1] 0 = makeComplex (v0 + v1) 0.
Proof.
  unfold dft_bin. change (seqZ 0 2) with [0; 1]%Z. cbn [foldl].
  rewrite load_0, load_1.
  unfold cuCadd, cuComplexScalarMult, cuComplexExponential, czero.
  cbn [cuCreal cuCimag].
  replace (-2 * PI * 0 * 0 / 2) with 0 by lra.
  replace (-2 * PI * 0 * 1 / 2) with 0 by lra.
  rewrite exp_0, cos_0, sin_0. apply (f_equal2 makeComplex); ring.
Qed.

Lemma dft_bin_2_1 (v0 v1 : R) : dft_bin 2 [v0; v1] 1 = makeComplex (v0 - v1) 0.
Proof.
  unfold dft_bin. change (seqZ 0 2) with [0; 1]%Z. cbn [foldl].
  rewrite load_0, load_1.
  unfold cuCadd, cuComplexScalarMult, cuComplexExponential, czero.
  cbn [cuCreal cuCimag].
  replace (-2 * PI * 1 * 0 / 2) with 0 by lra.
  replace (-2 * PI * 1 * 1 / 2) with (- PI) by lra.
  rewrite exp_0, cos_0, sin_0, cos_neg, sin_neg, cos_PI, sin_PI.
  apply (f_equal2 makeComplex); ring.
Qed.

Lemma idft_sample_2_0 (X0 X1 : complex) :
  idft_sample 2 [X0; X1] 0 = cuCreal X0 + cuCreal X1.
Proof.
  unfold idft_sample. change (seqZ 0 2) with [0; 1]%Z. cbn [foldl].
  unfold hermitian. change (2 ÷ 2)%Z with 1%Z.
  rewrite !decide_True by lia. rewrite load_0, load_1.
  unfold cuCadd, cuCmul, cuComplexExponential, czero.
  cbn [cuCreal cuCimag].
  replace (2 * PI * 0 * 0 / 2) with 0 by lra.
  replace (2 * PI * 1 * 0 / 2) with 0 by lra.
  rewrite exp_0, cos_0, sin_0. ring.
Qed.

Lemma flat_characteristic lam :
  characteristicOf (H := referenceExternals 0 1 0) (flatMarket European lam 0)
  = [makeComplex (- lam) 0; makeComplex (- lam) 0].
Proof.
  apply list_eq. intros [|[|j]].
  - rewrite (characteristicOf_None_lookup (H := referenceExternals 0 1 0) _ 0);
      [|done|apply isPowerOfTwo_2|simpl; lia].
    simpl. apply (f_equal Some). unfold diffusion_psi.
    apply (f_equal2 makeComplex); field.
  - rewrite (characteristicOf_None_lookup (H := referenceExternals 0 1 0) _ 1);
      [|done|apply isPowerOfTwo_2|simpl; lia].
    simpl. apply (f_equal Some). unfold diffusion_psi.
    apply (f_equal2 makeComplex); field.
  - apply lookup_ge_None.
    rewrite (length_characteristicOf_None (H := referenceExternals 0 1 0))
      by done.
    simpl. lia.
Qed.

Lemma flat_payoff lam :
  optionValuesAtPayoff (flatMarket European lam 0)
    (assetPricesAtPayoff (H := referenceExternals 0 1 0)
       (flatMarket European lam 0)) = [1; exp 1].
Proof.
  unfold optionValuesAtPayoff, assetPricesAtPayoff. cbv zeta.
  change (resolution (flatMarket European lam 0)) with 2%Z.
  change (seqZ 0 2) with [0; 1]%Z.
  change (replicate (Z.to_nat 2) 0) with [0; 0].
  cbn [foldl]. simpl.
  rewrite !store_0, !store_1, !load_0, !load_1.
  replace (0 + 0 * ((1 - 0) / (2 - 1))) with 0 by lra.
  replace (0 + 1 * ((1 - 0) / (2 - 1))) with 1 by lra.
  rewrite exp_0. pose proof (exp_pos 1).
  rewrite !Rmax_left by lra. f_equal; [lra|]. f_equal. lra.
Qed.

(** On the two-point grid over [[0, 1]], with zero rates and volatility, a
    European call struck at 0 on a unit asset is priced [exp(-lam)]. *)
Lemma flat_price lam :
  main (H := referenceExternals 0 1 0) (flatMarket European lam 0)
  = Some (exp (- lam)).
Proof.
  unfold main, computeGPU. cbv zeta.
  rewrite initialValues_copy by (by rewrite flat_payoff).
  unfold reportPrice. cbv zeta.
  assert (- x_min (Externals := referenceExternals 0 1 0)
              (flatMarket European lam 0)
          * IZR (resolution (flatMarket European lam 0) - 1)
          / (x_max (Externals := referenceExternals 0 1 0)
               (flatMarket European lam 0)
             - x_min (Externals := referenceExternals 0 1 0)
                 (flatMarket European lam 0)) = IZR 0) as ->.
  { simpl. rewrite minus_IZR. lra. }
  rewrite double_to_int_IZR.
  destruct (Req_dec_T _ _); [|done]. rewrite decide_True by lia.
  unfold timeLoop. cbv zeta.
  change (seqZ 0 (timesteps (flatMarket European lam 0))) with [0%Z].
  cbn [foldl].
  unfold timestep. cbv zeta. rewrite flat_characteristic.
  unfold propagate. cbv zeta.
  change (resolution (flatMarket European lam 0)) with 2%Z.
  rewrite fourier_blocks_2.
  change (Z.max (2 ÷ MAX_BLOCK_SIZE) 1) with 1%Z.
  change (Z.min 2 MAX_BLOCK_SIZE) with 2%Z.
  change (Z.min (2 ÷ 2 + 1) MAX_BLOCK_SIZE) with 2%Z.
  unfold launch. change (thread_indices 1 2) with [0; 1]%Z.
  unfold cufftExecD2Z, cufftExecZ2D.
  change (seqZ 0 (2 ÷ 2 + 1)) with [0; 1]%Z.
  change (seqZ 0 2) with [0; 1]%Z.
  change (cudaMalloc 2) with [czero; czero].
  rewrite decide_False by done. cbn [fst].
  rewrite flat_payoff.
  change (take (Z.to_nat 2) [1; exp 1]) with [1; exp 1].
  cbn [foldl]. unfold solveODE, normalize.
  change (cufft_D2Z 2) with (dft_bin 2).
  change (cufft_Z2D 2) with (idft_sample 2).
  rewrite dft_bin_2_0, dft_bin_2_1.
  repeat (rewrite ?store_0, ?store_1, ?load_0, ?load_1; cbv zeta).
  change (Z.to_nat (2 ÷ 2 + 1)) with 2%nat. cbn [take].
  rewrite idft_sample_2_0.
  change (Z.to_nat 0) with 0%nat. cbn [lookup list_lookup].
  apply (f_equal Some).
  change (IZR (timesteps (flatMarket European lam 0))) with 1.
  change (expiryTime (flatMarket European lam 0)) with 1.
  change (IZR (0 + 1)) with 1.
  replace (1 / 1 * 1 - 0 / 1 * 1) with 1 by lra.
  unfold cuCmul, cuComplexExponential, cuComplexScalarMult.
  cbn [cuCreal cuCimag].
  rewrite !Rmult_1_l, cos_0, sin_0. field.
Qed.

(** C8, as the specification states it, fails: two runs with the selector
    [None] that differ only in the jump intensity (0 and 1) report the
    prices 1 and [exp(-1)]. *)
Lemma NoJump_price_depends_on_jumpMean :
  jumpType (flatMarket European 0 0) = JumpType.None ∧
  jumpType (flatMarket European 1 0) = JumpType.None ∧
  shared_parameters_agree (flatMarket European 0 0) (flatMarket European 1 0) ∧
  main (H := referenceExternals 0 1 0) (flatMarket European 0 0) = Some 1 ∧
  main (H := referenceExternals 0 1 0) (flatMarket European 1 0)
    = Some (exp (-1)) ∧
  main (H := referenceExternals 0 1 0) (flatMarket European 0 0)
    ≠ main (H := referenceExternals 0 1 0) (flatMarket European 1 0).
Proof.
  assert (exp (Ropp 1) < 1) as Hlt.
  { apply Rlt_le_trans with (exp 0); [apply exp_increasing; lra|].
    rewrite exp_0. lra. }
  split; [done|]. split; [done|].
  split; [apply shared_parameters_agree_flat|].
  rewrite !flat_price. rewrite Ropp_0, exp_0.
  split; [done|]. split; [done|].
  intros [= Heq]. lra.
Qed.

(** ** C4: the frequency fold *)

Lemma signed_frequency_low (idx N : Z) :
  (idx ≤ N ÷ 2)%Z → signed_frequency idx N = IZR idx.
Proof. intros Hle. unfold signed_frequency. by rewrite decide_True. Qed.

Lemma prepareMertonJumpFT_pointwise dfreq N stdev drift :
  pointwise czero
    (λ idx _, merton_at dfreq stdev drift (signed_frequency idx N))
    (prepareMertonJumpFT dfreq N stdev drift).
Proof. intros idx a. reflexivity. Qed.

Lemma NoFold_prepareMertonJumpFT_pointwise dfreq N stdev drift :
  pointwise czero
    (λ idx _, merton_at dfreq stdev drift (IZR idx))
    (NoFold.prepareMertonJumpFT dfreq N stdev drift).
Proof. intros idx a. reflexivity. Qed.

Lemma prepareKouJumpFT_pointwise dfreq N p up down :
  pointwise czero
    (λ idx _, kou_at dfreq p up down (signed_frequency idx N))
    (prepareKouJumpFT dfreq N p up down).
Proof. intros idx a. reflexivity. Qed.

Lemma NoFold_prepareKouJumpFT_pointwise dfreq N p up down :
  pointwise czero
    (λ idx _, kou_at dfreq p up down (IZR idx))
    (NoFold.prepareKouJumpFT dfreq N p up down).
Proof. intros idx a. reflexivity. Qed.

Lemma prepareJumpModelCharacteristic_pointwise jump_ft r q sigma lam kap dfreq N :
  pointwise czero
    (λ idx _,
       jump_psi_at ((λ a, load czero a idx) <$> jump_ft)
         r q sigma lam kap dfreq (signed_frequency idx N))
    (prepareJumpModelCharacteristic jump_ft r q sigma lam kap dfreq N).
Proof. intros idx a. by destruct jump_ft. Qed.

Lemma NoFold_prepareJumpModelCharacteristic_pointwise
    jump_ft r q sigma lam kap dfreq N :
  pointwise czero
    (λ idx _,
       jump_psi_at ((λ a, load czero a idx) <$> jump_ft)
         r q sigma lam kap dfreq (IZR idx))
    (NoFold.prepareJumpModelCharacteristic jump_ft r q sigma lam kap dfreq N).
Proof. intros idx a. by destruct jump_ft. Qed.

Section Fold.
Context `{Externals}.

Lemma prepareCGMYCharacteristic_pointwise N dfreq C G M Y gamma :
  pointwise czero
    (λ idx _, cgmy_at dfreq C G M Y gamma (signed_frequency idx N))
    (prepareCGMYCharacteristic N dfreq C G M Y gamma).
Proof. intros idx a. reflexivity. Qed.

Lemma NoFold_prepareCGMYCharacteristic_pointwise N dfreq C G M Y gamma :
  pointwise czero
    (λ idx _, cgmy_at dfreq C G M Y gamma (IZR idx))
    (NoFold.prepareCGMYCharacteristic N dfreq C G M Y gamma).
Proof. intros idx a. reflexivity. Qed.
End Fold.

(** Two launches of the same shape whose kernels compute the same value for
    thread [j] leave the same contents in cell [j]. *)
Lemma launch_agree {A : Type} (d : A) g1 g2 k1 k2 gridDim blockDim
    (a1 a2 : list A) (j : nat) :
  pointwise d g1 k1 → pointwise d g2 k2 →
  a1 !! j = a2 !! j →
  (∀ v, g1 (Z.of_nat j) v = g2 (Z.of_nat j) v) →
  launch gridDim blockDim k1 a1 !! j = launch gridDim blockDim k2 a2 !! j.
Proof.
  intros Hk1 Hk2 Ha Hg. destruct (decide (0 ≤ gridDim)%Z) as [Hpos|Hneg].
  - erewrite (launch_lookup d g1 k1), (launch_lookup d g2 k2) by done.
    rewrite Ha. case_decide; [|done].
    destruct (a2 !! j) as [v|]; [|done]. simpl. by rewrite Hg.
  - unfold launch, thread_indices. by rewrite (seqZ_nil 0 gridDim) by lia.
Qed.

Lemma load_agree {A : Type} (d : A) (a1 a2 : list A) (j : nat) :
  a1 !! j = a2 !! j → load d a1 (Z.of_nat j) = load d a2 (Z.of_nat j).
Proof. intros Ha. by rewrite !load_of_nat, Ha. Qed.

Section FoldIrrelevant.
Context `{Externals}.

(** The characteristic arrays computed with and without the fold have the
    same contents in the bins [0 .. N/2]. *)
Lemma characteristicOf_agree (params : Parameters) :
  agree_on_bins (resolution params)
    (characteristicOf params) (NoFold.characteristicOf params).
Proof.
  unfold characteristicOf, NoFold.characteristicOf. cbv zeta.
  set (N := resolution params).
  set (gridDim := Z.max (N ÷ MAX_BLOCK_SIZE) 1).
  set (blockDim := Z.min N MAX_BLOCK_SIZE).
  assert (∀ (j : nat) dfreq s d,
            (Z.of_nat j ≤ N ÷ 2)%Z →
            launch gridDim blockDim (prepareMertonJumpFT dfreq N s d)
              (cudaMalloc N) !! j =
            launch gridDim blockDim (NoFold.prepareMertonJumpFT dfreq N s d)
              (cudaMalloc N) !! j) as Hmerton.
  { intros j dfreq s d Hj.
    eapply launch_agree;
      [apply prepareMertonJumpFT_pointwise
      |apply NoFold_prepareMertonJumpFT_pointwise|done|].
    intros ?. cbv beta. by rewrite signed_frequency_low. }
  assert (∀ (j : nat) dfreq p u d,
            (Z.of_nat j ≤ N ÷ 2)%Z →
            launch gridDim blockDim (prepareKouJumpFT dfreq N p u d)
              (cudaMalloc N) !! j =
            launch gridDim blockDim (NoFold.prepareKouJumpFT dfreq N p u d)
              (cudaMalloc N) !! j) as Hkou.
  { intros j dfreq p u d Hj.
    eapply launch_agree;
      [apply prepareKouJumpFT_pointwise
      |apply NoFold_prepareKouJumpFT_pointwise|done|].
    intros ?. cbv beta. by rewrite signed_frequency_low. }
  split.
  - repeat case_decide;
      repeat first
        [ erewrite launch_length by apply prepareCGMYCharacteristic_pointwise
        | erewrite launch_length
            by apply NoFold_prepareCGMYCharacteristic_pointwise
        | erewrite launch_length
            by apply prepareJumpModelCharacteristic_pointwise
        | erewrite launch_length
            by apply NoFold_prepareJumpModelCharacteristic_pointwise ];
      done.
  - intros j Hj. repeat case_decide.
    + eapply launch_agree;
        [apply prepareCGMYCharacteristic_pointwise
        |apply NoFold_prepareCGMYCharacteristic_pointwise|done|].
      intros ?. cbv beta. by rewrite signed_frequency_low.
    + eapply launch_agree;
        [apply prepareJumpModelCharacteristic_pointwise
        |apply NoFold_prepareJumpModelCharacteristic_pointwise|done|].
      intros ?. cbv beta. cbn [fmap option_fmap option_map].
      rewrite signed_frequency_low by done.
      by rewrite (load_agree czero _ _ j (Hmerton j _ _ _ Hj)).
    + eapply launch_agree;
        [apply prepareJumpModelCharacteristic_pointwise
        |apply NoFold_prepareJumpModelCharacteristic_pointwise|done|].
      intros ?. cbv beta. cbn [fmap option_fmap option_map].
      rewrite signed_frequency_low by done.
      by rewrite (load_agree czero _ _ j (Hkou j _ _ _ _ Hj)).
    + eapply launch_agree;
        [apply prepareJumpModelCharacteristic_pointwise
        |apply NoFold_prepareJumpModelCharacteristic_pointwise|done|].
      intros ?. cbv beta. by rewrite signed_frequency_low.
    + eapply launch_agree;
        [apply prepareJumpModelCharacteristic_pointwise
        |apply NoFold_prepareJumpModelCharacteristic_pointwise|done|].
      intros ?. cbv beta. by rewrite signed_frequency_low.
Qed.
End FoldIrrelevant.

Lemma take_agree (N : Z) (a b : list complex) :
  agree_on_bins N a b →
  take (Z.to_nat (N ÷ 2 + 1)) a = take (Z.to_nat (N ÷ 2 + 1)) b.
Proof.
  intros [_ Hag]. apply list_eq. intros j.
  destruct (decide (j < Z.to_nat (N ÷ 2 + 1))%nat) as [Hj|Hj].
  - rewrite !lookup_take_lt by done. apply Hag. lia.
  - by rewrite !lookup_take_ge by lia.
Qed.

Section TimeLoop.
Context `{Externals}.

(** The device arrays after one step do not depend on the contents of
    [d_characteristic] and of [d_ft] beyond bin [N/2]. *)
Lemma propagate_agree params c1 c2 d_prices ft1 ft2 i :
  agree_on_bins (resolution params) c1 c2 →
  agree_on_bins (resolution params) ft1 ft2 →
  (propagate params c1 (d_prices, ft1) i).1
    = (propagate params c2 (d_prices, ft2) i).1 ∧
  agree_on_bins (resolution params)
    (propagate params c1 (d_prices, ft1) i).2
    (propagate params c2 (d_prices, ft2) i).2.
Proof.
  intros [Hclen Hc] [Hflen Hf]. unfold propagate. cbv zeta. cbn [fst snd].
  set (N := resolution params).
  set (gridDim := double_to_int _). set (blockDim := Z.min (N ÷ 2 + 1) _).
  set (from_time := IZR i / _ * _). set (to_time := IZR (i + 1) / _ * _).
  assert (agree_on_bins N
            (launch gridDim blockDim (solveODE c1 from_time to_time)
               (cufftExecD2Z N d_prices ft1))
            (launch gridDim blockDim (solveODE c2 from_time to_time)
               (cufftExecD2Z N d_prices ft2))) as Hag.
  { split.
    - erewrite !launch_length by apply solveODE_pointwise.
      unfold cufftExecD2Z.
      by erewrite !foldl_pointwise_length by apply cufftExecD2Z_pointwise.
    - intros j Hj.
      eapply launch_agree; [apply solveODE_pointwise..| |].
      + unfold cufftExecD2Z.
        erewrite !foldl_pointwise_lookup by apply cufftExecD2Z_pointwise.
        by rewrite (Hf j Hj).
      + intros v. cbv beta.
        by rewrite (load_agree czero c1 c2 j (Hc j Hj)). }
  split; [|done].
  unfold cufftExecZ2D. by rewrite (take_agree N _ _ Hag).
Qed.

Lemma timestep_agree params c1 c2 d_prices ft1 ft2 i :
  agree_on_bins (resolution params) c1 c2 →
  agree_on_bins (resolution params) ft1 ft2 →
  (timestep params c1 (d_prices, ft1) i).1
    = (timestep params c2 (d_prices, ft2) i).1 ∧
  agree_on_bins (resolution params)
    (timestep params c1 (d_prices, ft1) i).2
    (timestep params c2 (d_prices, ft2) i).2.
Proof.
  intros Hc Hf.
  destruct (propagate_agree params c1 c2 d_prices ft1 ft2 i Hc Hf)
    as [Hp Hft].
  unfold timestep. cbv zeta.
  destruct (propagate params c1 (d_prices, ft1) i) as [p1 f1].
  destruct (propagate params c2 (d_prices, ft2) i) as [p2 f2].
  cbn [fst snd] in *. by subst p2.
Qed.

Lemma steps_agree params c1 c2 (steps : list Z) st1 st2 :
  agree_on_bins (resolution params) c1 c2 →
  st1.1 = st2.1 →
  agree_on_bins (resolution params) st1.2 st2.2 →
  (foldl (timestep params c1) st1 steps).1
    = (foldl (timestep params c2) st2 steps).1.
Proof.
  intros Hc. revert st1 st2.
  induction steps as [|i steps IH]; intros [p1 f1] [p2 f2] Hp Hf;
    cbn [fst snd] in *; [done|].
  subst p2. cbn [foldl].
  destruct (timestep_agree params c1 c2 p1 f1 f2 i Hc Hf) as [Hp' Hf'].
  by apply IH.
Qed.

(** The fold changes no reported price. *)
Lemma computeGPU_NoFold params assetPrices optionValues :
  computeGPU params assetPrices optionValues
  = NoFold.computeGPU params assetPrices optionValues.
Proof.
  unfold computeGPU, NoFold.computeGPU, timeLoop. cbv zeta.
  set (st := (take (Z.to_nat (resolution params)) optionValues,
              cudaMalloc (resolution params))).
  rewrite (steps_agree params (characteristicOf params)
             (NoFold.characteristicOf params)
             (seqZ 0 (timesteps params)) st st);
    [done|apply characteristicOf_agree|done|by split].
Qed.

(** C4 (amended).  The providers run one thread for every [idx < N], so
    the branch [m = idx - N] is taken for [N/2 < idx < N]; but for the bins
    [idx <= N/2], the only ones the transforms write and read, the signed
    frequency is [idx], the characteristic array is the same with and
    without the branch, and so is the price that [computeGPU] reports. *)
Theorem fold_harmless (params : Parameters)
    (assetPrices optionValues : list R) (idx : Z) :
  (0 ≤ idx ≤ resolution params ÷ 2)%Z →
  signed_frequency idx (resolution params) = IZR idx ∧
  characteristicOf params !! Z.to_nat idx
    = NoFold.characteristicOf params !! Z.to_nat idx ∧
  computeGPU params assetPrices optionValues
    = NoFold.computeGPU params assetPrices optionValues.
Proof.
  intros Hidx. split; [apply signed_frequency_low; lia|].
  split; [|apply computeGPU_NoFold].
  apply characteristicOf_agree. lia.
Qed.
End TimeLoop.

Lemma fold_harmless_witness :
  (0 ≤ 1 ≤ resolution (flatMarket European 1 0) ÷ 2)%Z ∧
  signed_frequency 1 (resolution (flatMarket European 1 0)) = IZR 1 ∧
  characteristicOf (H := referenceExternals 0 1 0) (flatMarket European 1 0)
    !! Z.to_nat 1
  = NoFold.characteristicOf (H := referenceExternals 0 1 0)
      (flatMarket European 1 0) !! Z.to_nat 1 ∧
  computeGPU (H := referenceExternals 0 1 0) (flatMarket European 1 0) [] [1; 2]
  = NoFold.computeGPU (H := referenceExternals 0 1 0)
      (flatMarket European 1 0) [] [1; 2].
Proof.
  assert (0 ≤ 1 ≤ resolution (flatMarket European 1 0) ÷ 2)%Z as Hidx.
  { change (resolution (flatMarket European 1 0) ÷ 2)%Z with 1%Z. lia. }
  split; [exact Hidx|].
  exact (fold_harmless (H := referenceExternals 0 1 0)
           (flatMarket European 1 0) [] [1; 2] 1 Hidx).
Defined.

(** C4, as the specification states it, fails: with four grid points the
    providers run thread 3, for which [idx <= N/2] is false; the fold gives
    it the frequency -1, and the exponent it stores (imaginary part [pi])
    is not the one stored without the fold (imaginary part [-3 pi]). *)
Lemma fold_branch_is_taken :
  3%Z ∈ thread_indices (Z.max (4 ÷ MAX_BLOCK_SIZE) 1) (Z.min 4 MAX_BLOCK_SIZE) ∧
  ¬ (3 ≤ 4 ÷ 2)%Z ∧
  cuCimag <$>
    prepareJumpModelCharacteristic None 0 0 1 0 0 1 4 3
      [czero; czero; czero; czero] !! 3%nat = Some PI ∧
  cuCimag <$>
    NoFold.prepareJumpModelCharacteristic None 0 0 1 0 0 1 4 3
      [czero; czero; czero; czero] !! 3%nat = Some (-3 * PI) ∧
  PI ≠ -3 * PI.
Proof.
  split; [|split; [|split; [|split]]].
  - change (thread_indices _ _) with [0; 1; 2; 3]%Z.
    apply list_elem_of_In. simpl. tauto.
  - change (4 ÷ 2)%Z with 2%Z. lia.
  - rewrite prepareJumpModelCharacteristic_pointwise.
    change 3%Z with (Z.of_nat 3). rewrite lookup_store_eq.
    cbn [lookup list_lookup fmap option_fmap option_map jump_psi_at].
    apply (f_equal Some). unfold diffusion_psi, signed_frequency.
    cbn [cuCimag]. rewrite decide_False by (change (4 ÷ 2)%Z with 2%Z; lia).
    change (IZR (Z.of_nat 3 - 4)) with (-1). field.
  - rewrite NoFold_prepareJumpModelCharacteristic_pointwise.
    change 3%Z with (Z.of_nat 3). rewrite lookup_store_eq.
    cbn [lookup list_lookup fmap option_fmap option_map jump_psi_at].
    apply (f_equal Some). unfold diffusion_psi.
    cbn [cuCimag]. change (IZR (Z.of_nat 3)) with 3. field.
  - pose proof PI_RGT_0. lra.
Qed.

(** * Further properties of the code *)

(** ** The threads of a launch commute *)

Section Commute.
Context {A : Type}.
Implicit Types (a : list A) (idx : Z).

Lemma load_store_ne (d : A) a x y v :
  x ≠ y → load d (store a y v) x = load d a x.
Proof.
  intros Hne. unfold load. case_decide; [|done].
  rewrite <- (Z2Nat.id x) in Hne by done.
  by rewrite lookup_store_ne.
Qed.

Lemma store_commute a x y v w :
  x ≠ y → store (store a y v) x w = store (store a x w) y v.
Proof.
  intros Hne. unfold store. repeat case_decide; try done.
  apply list_insert_insert_ne. lia.
Qed.

Lemma pointwise_commute (d : A) g kernel x y a :
  pointwise d g kernel → kernel x (kernel y a) = kernel y (kernel x a).
Proof.
  intros Hk. destruct (decide (x = y)) as [->|Hne]; [done|].
  rewrite !Hk. rewrite !load_store_ne by done.
  by apply store_commute.
Qed.

Lemma foldl_pointwise_permutation (d : A) g kernel (l1 l2 : list Z) a :
  pointwise d g kernel → l1 ≡ₚ l2 →
  foldl (λ m idx, kernel idx m) a l1 = foldl (λ m idx, kernel idx m) a l2.
Proof.
  intros Hk Hperm. revert a.
  induction Hperm as [|x l1 l2 _ IH|x y l|l1 l2 l3 _ IH1 _ IH2]; intros a.
  - done.
  - cbn [foldl]. apply IH.
  - cbn [foldl]. f_equal. by eapply pointwise_commute.
  - by rewrite IH1.
Qed.
End Commute.

(** X1.  The threads of a launch of [solveODE], [normalize] or
    [earlyExercise] may run in any order: whatever permutation of the
    thread indices is followed, the array is the one the launch leaves. *)
Theorem threads_commute (gridDim blockDim : Z) (order : list Z) :
  order ≡ₚ thread_indices gridDim blockDim →
  (∀ characteristic from_time to_time ft,
     foldl (λ m idx, solveODE characteristic from_time to_time idx m) ft order
     = launch gridDim blockDim
         (solveODE characteristic from_time to_time) ft) ∧
  (∀ length ft,
     foldl (λ m idx, normalize length idx m) ft order
     = launch gridDim blockDim (normalize length) ft) ∧
  (∀ startPrice strikePrice x_min delta_x type ft,
     foldl (λ m idx,
              earlyExercise startPrice strikePrice x_min delta_x type idx m)
           ft order
     = launch gridDim blockDim
         (earlyExercise startPrice strikePrice x_min delta_x type) ft).
Proof.
  intros Hperm. unfold launch. split; [|split]; intros.
  - eapply foldl_pointwise_permutation; [apply solveODE_pointwise|done].
  - eapply foldl_pointwise_permutation; [apply normalize_pointwise|done].
  - eapply foldl_pointwise_permutation; [apply earlyExercise_pointwise|done].
Qed.

Lemma threads_commute_witness :
  [1; 0]%Z ≡ₚ thread_indices 1 2 ∧
  (∀ length ft,
     foldl (λ m idx, normalize length idx m) ft [1; 0]%Z
     = launch 1 2 (normalize length) ft).
Proof.
  assert ([1; 0]%Z ≡ₚ thread_indices 1 2) as Hperm.
  { change (thread_indices 1 2) with [0; 1]%Z. apply Permutation_swap. }
  split; [exact Hperm|].
  exact (proj1 (proj2 (threads_commute 1 2 [1; 0]%Z Hperm))).
Defined.

(** ** The complex exponential and the propagator *)

Lemma cuComplexExponential_add (x y : complex) :
  cuComplexExponential (cuCadd x y)
  = cuCmul (cuComplexExponential x) (cuComplexExponential y).
Proof.
  unfold cuComplexExponential, cuCadd, cuCmul. cbn [cuCreal cuCimag].
  rewrite exp_plus, cos_plus, sin_plus.
  apply (f_equal2 makeComplex); ring.
Qed.

Lemma cuComplexExponential_zero :
  cuComplexExponential (makeComplex 0 0) = makeComplex 1 0.
Proof.
  unfold cuComplexExponential. cbn [cuCreal cuCimag].
  rewrite exp_0, cos_0, sin_0. apply (f_equal2 makeComplex); ring.
Qed.

Lemma cuCmul_assoc (x y z : complex) :
  cuCmul (cuCmul x y) z = cuCmul x (cuCmul y z).
Proof.
  unfold cuCmul. cbn [cuCreal cuCimag]. apply (f_equal2 makeComplex); ring.
Qed.

Lemma cuCmul_one (x : complex) : cuCmul x (makeComplex 1 0) = x.
Proof.
  destruct x as [a b]. unfold cuCmul. cbn [cuCreal cuCimag].
  apply (f_equal2 makeComplex); ring.
Qed.

Lemma cuCabs_mul (x y : complex) :
  cuCabs (cuCmul x y) = cuCabs x * cuCabs y.
Proof.
  unfold cuCabs, cuCmul. cbn [cuCreal cuCimag].
  rewrite <- sqrt_mult by nra. f_equal. ring.
Qed.

Lemma cuCabs_exponential (x : complex) :
  cuCabs (cuComplexExponential x) = exp (cuCreal x).
Proof.
  unfold cuCabs, cuComplexExponential. cbn [cuCreal cuCimag].
  replace (exp (cuCreal x) * cos (cuCimag x) * (exp (cuCreal x) * cos (cuCimag x))
           + exp (cuCreal x) * sin (cuCimag x)
             * (exp (cuCreal x) * sin (cuCimag x)))
    with (exp (cuCreal x) * exp (cuCreal x)
          * ((sin (cuCimag x))² + (cos (cuCimag x))²))
    by (unfold Rsqr; ring).
  rewrite sin2_cos2, Rmult_1_r.
  apply sqrt_square. left. apply exp_pos.
Qed.

(** X2.  [cuComplexExponential] turns a sum into a product, sends 0 to 1 and
    has modulus [e^a] at [a + bi]. *)
Theorem cuComplexExponential_laws (x y : complex) :
  cuComplexExponential (cuCadd x y)
    = cuCmul (cuComplexExponential x) (cuComplexExponential y) ∧
  cuComplexExponential (makeComplex 0 0) = makeComplex 1 0 ∧
  cuCabs (cuComplexExponential x) = exp (cuCreal x).
Proof.
  split; [apply cuComplexExponential_add|].
  split; [apply cuComplexExponential_zero|].
  apply cuCabs_exponential.
Qed.

Lemma solveODE_compose_value (psi : complex) (t0 t1 t2 : R) (v : complex) :
  cuCmul
    (cuCmul v (cuComplexExponential (cuComplexScalarMult (t1 - t0) psi)))
    (cuComplexExponential (cuComplexScalarMult (t2 - t1) psi))
  = cuCmul v (cuComplexExponential (cuComplexScalarMult (t2 - t0) psi)).
Proof.
  rewrite cuCmul_assoc, <- cuComplexExponential_add. do 2 f_equal.
  unfold cuCadd, cuComplexScalarMult. cbn [cuCreal cuCimag].
  apply (f_equal2 makeComplex); ring.
Qed.

(** X3.  Propagating from [t0] to [t1] and then from [t1] to [t2] is
    propagating from [t0] to [t2]: two launches of [solveODE] of the same
    shape compose into one. *)
Theorem solveODE_composes (gridDim blockDim : Z)
    (characteristic ft : list complex) (t0 t1 t2 : R) :
  launch gridDim blockDim (solveODE characteristic t1 t2)
    (launch gridDim blockDim (solveODE characteristic t0 t1) ft)
  = launch gridDim blockDim (solveODE characteristic t0 t2) ft.
Proof.
  destruct (decide (0 ≤ gridDim)%Z) as [Hg|Hg].
  - apply list_eq. intros j.
    erewrite !launch_lookup by (apply solveODE_pointwise || done).
    case_decide; [|done].
    destruct (ft !! j) as [v|]; [|done]. cbn [fmap option_fmap option_map].
    by rewrite solveODE_compose_value.
  - unfold launch, thread_indices. by rewrite (seqZ_nil 0 gridDim) by lia.
Qed.

(** X4.  Over an empty time interval the propagator changes nothing. *)
Theorem solveODE_zero_interval (gridDim blockDim : Z)
    (characteristic ft : list complex) (t : R) :
  launch gridDim blockDim (solveODE characteristic t t) ft = ft.
Proof.
  destruct (decide (0 ≤ gridDim)%Z) as [Hg|Hg].
  - apply list_eq. intros j.
    erewrite launch_lookup by (apply solveODE_pointwise || done).
    case_decide; [|done].
    destruct (ft !! j) as [v|]; [|done]. cbn [fmap option_fmap option_map].
    f_equal. unfold cuComplexScalarMult.
    replace (t - t) with 0 by ring. rewrite !Rmult_0_l.
    by rewrite cuComplexExponential_zero, cuCmul_one.
  - unfold launch, thread_indices. by rewrite (seqZ_nil 0 gridDim) by lia.
Qed.

Lemma exp_le_1 (x : R) : x <= 0 → exp x <= 1.
Proof.
  intros [Hlt| ->]; [|rewrite exp_0; lra].
  left. rewrite <- exp_0. by apply exp_increasing.
Qed.

Section Contraction.
Context `{Externals}.

(** X5.  Without jumps and with [r + jumpMean >= 0], a forward step in
    time never amplifies a frequency bin: after the launch of [solveODE] on
    the No-Jump characteristic the modulus of every bin [idx <= N/2] is at
    most what it was. *)
Theorem NoJump_propagation_contracts (params : Parameters)
    (ft : list complex) (from_time to_time : R) (idx : Z) (old : complex) :
  jumpType params = JumpType.None →
  isPowerOfTwo (resolution params) →
  0 <= riskFreeRate params + jumpMean params →
  from_time <= to_time →
  (0 ≤ idx ≤ resolution params ÷ 2)%Z →
  ft !! Z.to_nat idx = Some old →
  let N := resolution params in
  let fourier_size := (N ÷ 2 + 1)%Z in
  let fourier_block_count :=
    double_to_int (ceil (IZR fourier_size / IZR MAX_BLOCK_SIZE)) in
  let fourier_block_size := Z.min fourier_size MAX_BLOCK_SIZE in
  ∃ new : complex,
    launch fourier_block_count fourier_block_size
      (solveODE (characteristicOf params) from_time to_time) ft
      !! Z.to_nat idx = Some new ∧
    cuCabs new <= cuCabs old.
Proof.
  intros Hjt Hpow Hr Ht Hidx Hold N fs fbc fbs. subst N fs fbc fbs.
  pose proof (fourier_launch_covers (resolution params) ltac:(lia)) as Hcov.
  cbv zeta in Hcov. destruct Hcov as [Hc Hcover].
  assert (0 ≤ idx < resolution params)%Z as Hlt.
  { destruct Hpow as [k Hk].
    pose proof (Z.pow_pos_nonneg 2 (Z.of_nat k)).
    Z.to_euclidean_division_equations. lia. }
  erewrite launch_lookup by (apply solveODE_pointwise || done).
  rewrite Z2Nat.id by lia.
  set (threads := (double_to_int _ * _)%Z) in *.
  set (half := (resolution params ÷ 2)%Z) in *.
  rewrite decide_True by (clearbody threads half; lia).
  rewrite Hold. cbn [fmap option_fmap option_map].
  eexists. split; [done|].
  unfold load. rewrite decide_True by lia.
  rewrite characteristicOf_None_lookup by done.
  cbv beta iota delta [default from_option Datatypes.id].
  rewrite cuCabs_mul, cuCabs_exponential.
  unfold cuComplexScalarMult, diffusion_psi. cbn [cuCreal cuCimag].
  set (k := delta_frequency params * _).
  assert (0 <= cuCabs old) as Hpos by apply sqrt_pos.
  match goal with
  | |- _ * exp ?t <= _ => assert (exp t <= 1) as Hexp
  end.
  { apply exp_le_1.
    set (y := volatility params * PI * k).
    assert (0 <= y * y) as Hy by nra.
    pose proof (Rmult_le_pos (to_time - from_time)
                  (y * y + y * y
                   + (riskFreeRate params + jumpMean params))
                  ltac:(lra) ltac:(lra)).
    nra. }
  nra.
Qed.
End Contraction.

Lemma NoJump_propagation_contracts_witness :
  jumpType (flatMarket European 1 0) = JumpType.None ∧
  isPowerOfTwo (resolution (flatMarket European 1 0)) ∧
  0 <= riskFreeRate (flatMarket European 1 0)
       + jumpMean (flatMarket European 1 0) ∧
  0 <= 1 ∧
  (0 ≤ 1 ≤ resolution (flatMarket European 1 0) ÷ 2)%Z ∧
  [makeComplex 3 4; makeComplex 1 2] !! Z.to_nat 1 = Some (makeComplex 1 2) ∧
  ∃ new : complex,
    launch
      (double_to_int
         (ceil (IZR (resolution (flatMarket European 1 0) ÷ 2 + 1)
                / IZR MAX_BLOCK_SIZE)))
      (Z.min (resolution (flatMarket European 1 0) ÷ 2 + 1) MAX_BLOCK_SIZE)
      (solveODE
         (characteristicOf (H := referenceExternals 0 1 0)
            (flatMarket European 1 0)) 0 1)
      [makeComplex 3 4; makeComplex 1 2] !! Z.to_nat 1 = Some new ∧
    cuCabs new <= cuCabs (makeComplex 1 2).
Proof.
  assert (0 <= riskFreeRate (flatMarket European 1 0)
               + jumpMean (flatMarket European 1 0)) as Hr by (simpl; lra).
  assert (0 <= 1) as Ht by lra.
  assert (0 ≤ 1 ≤ resolution (flatMarket European 1 0) ÷ 2)%Z as Hidx.
  { change (resolution (flatMarket European 1 0) ÷ 2)%Z with 1%Z. lia. }
  split; [reflexivity|]. split; [apply isPowerOfTwo_2|].
  split; [exact Hr|]. split; [exact Ht|]. split; [exact Hidx|].
  split; [reflexivity|].
  exact (NoJump_propagation_contracts (H := referenceExternals 0 1 0)
           (flatMarket European 1 0) [makeComplex 3 4; makeComplex 1 2]
           0 1 1 (makeComplex 1 2)
           eq_refl isPowerOfTwo_2 Hr Ht Hidx eq_refl).
Defined.

(** ** The payoff at expiry *)

Lemma load_lookup {A : Type} (d : A) (a : list A) (idx : Z) (v : A) :
  (0 ≤ idx)%Z → a !! Z.to_nat idx = Some v → load d a idx = v.
Proof. intros Hidx Hv. unfold load. rewrite decide_True by done. by rewrite Hv. Qed.

Section PayoffGrid.
Context `{Externals}.

Lemma length_assetPricesAtPayoff (prms : Parameters) :
  length (assetPricesAtPayoff prms) = Z.to_nat (resolution prms).
Proof.
  unfold assetPricesAtPayoff. cbv zeta.
  erewrite (foldl_pointwise_length 0
              (λ i _, startPrice prms
                      * exp (x_min prms
                             + IZR i * ((x_max prms - x_min prms)
                                        / (IZR (resolution prms) - 1)))))
    by (intros idx a; reflexivity).
  apply length_replicate.
Qed.

Lemma optionValuesAtPayoff_lookup_lt (prms : Parameters)
    (assetPrices : list R) (i : Z) :
  (0 ≤ i < resolution prms)%Z →
  optionValuesAtPayoff prms assetPrices !! Z.to_nat i =
    Some (match optionPayoffType prms with
          | Call => Rmax (load 0 assetPrices i - strikePrice prms) 0
          | Put => Rmax (strikePrice prms - load 0 assetPrices i) 0
          end).
Proof.
  intros Hi. unfold optionValuesAtPayoff. cbv zeta.
  erewrite (foldl_pointwise_lookup 0
              (λ i _, if decide (optionPayoffType prms = Call)
                      then Rmax (load 0 assetPrices i - strikePrice prms) 0
                      else Rmax (strikePrice prms - load 0 assetPrices i) 0))
    by (intros idx a; by case_decide).
  rewrite Z2Nat.id by lia. rewrite decide_True by lia.
  rewrite lookup_replicate_2 by lia. cbn [fmap option_fmap option_map].
  f_equal. case_decide as Ht; [by rewrite Ht|].
  by destruct (optionPayoffType prms).
Qed.

Lemma length_optionValuesAtPayoff (prms : Parameters) (assetPrices : list R) :
  length (optionValuesAtPayoff prms assetPrices) = Z.to_nat (resolution prms).
Proof.
  unfold optionValuesAtPayoff. cbv zeta.
  erewrite (foldl_pointwise_length 0
              (λ i _, if decide (optionPayoffType prms = Call)
                      then Rmax (load 0 assetPrices i - strikePrice prms) 0
                      else Rmax (strikePrice prms - load 0 assetPrices i) 0))
    by (intros idx a; by case_decide).
  apply length_replicate.
Qed.

Lemma payoff_lookup (params : Parameters) (idx : Z) :
  (0 ≤ idx < resolution params)%Z →
  optionValuesAtPayoff params (assetPricesAtPayoff params) !! Z.to_nat idx =
    Some (intrinsic (startPrice params) (strikePrice params)
            (x_min params) (delta_x params) (optionPayoffType params) idx).
Proof.
  intros Hidx. rewrite optionValuesAtPayoff_lookup_lt by done.
  rewrite (load_lookup 0 _ idx _ ltac:(lia)
             (assetPricesAtPayoff_lookup params idx Hidx)).
  unfold intrinsic, delta_x. cbv zeta. by rewrite minus_IZR.
Qed.

(** X6.  The payoff that [main] hands to [computeGPU] is the intrinsic value
    on the grid of the projector, and the projector leaves it as it is:
    at expiry an American option is worth its payoff. *)
Theorem payoff_fixed_by_projector (params : Parameters) :
  isPowerOfTwo (resolution params) →
  let payoff := optionValuesAtPayoff params (assetPricesAtPayoff params) in
  (∀ idx : Z,
     (0 ≤ idx < resolution params)%Z →
     payoff !! Z.to_nat idx =
       Some (intrinsic (startPrice params) (strikePrice params)
               (x_min params) (delta_x params)
               (optionPayoffType params) idx)) ∧
  launch (Z.max (resolution params ÷ MAX_BLOCK_SIZE) 1)
         (Z.min (resolution params) MAX_BLOCK_SIZE)
         (earlyExercise (startPrice params) (strikePrice params)
            (x_min params) (delta_x params) (optionPayoffType params))
         payoff
  = payoff.
Proof.
  intros Hpow payoff. split; [apply payoff_lookup|].
  apply list_eq. intros j.
  erewrite launch_lookup by (apply earlyExercise_pointwise || lia).
  rewrite grid_covers_pow2 by done.
  case_decide as Hj; [|done].
  rewrite <- (Nat2Z.id j). subst payoff.
  rewrite payoff_lookup by lia. cbn [fmap option_fmap option_map].
  rewrite Z2Nat.id by lia. by rewrite Rmax_left by lra.
Qed.

(** X7.  Put-call parity at expiry: on the same asset prices and strike the
    call payoff minus the put payoff at a grid point is [S_i - K]. *)
Theorem payoff_put_call_parity (pc pp : Parameters) (assetPrices : list R)
    (i : Z) (s : R) :
  optionPayoffType pc = Call →
  optionPayoffType pp = Put →
  strikePrice pc = strikePrice pp →
  resolution pc = resolution pp →
  (0 ≤ i < resolution pc)%Z →
  assetPrices !! Z.to_nat i = Some s →
  ∃ c p : R,
    optionValuesAtPayoff pc assetPrices !! Z.to_nat i = Some c ∧
    optionValuesAtPayoff pp assetPrices !! Z.to_nat i = Some p ∧
    c - p = s - strikePrice pc.
Proof.
  intros Hc Hp HK HN Hi Hs.
  rewrite !optionValuesAtPayoff_lookup_lt by lia.
  rewrite Hc, Hp, <- HK. rewrite (load_lookup 0 _ i s ltac:(lia) Hs).
  eexists _, _. split; [done|]. split; [done|].
  unfold Rmax. repeat destruct (Rle_dec _ _); lra.
Qed.

Lemma assetPrices_start_lookup (params : Parameters) (j : Z) :
  (2 ≤ resolution params)%Z →
  x_min params ≠ x_max params →
  (0 ≤ j < resolution params)%Z →
  IZR j = - x_min params * IZR (resolution params - 1)
          / (x_max params - x_min params) →
  assetPricesAtPayoff params !! Z.to_nat j = Some (startPrice params).
Proof.
  intros HN Hx Hj Heq. rewrite assetPricesAtPayoff_lookup by done.
  rewrite Heq, minus_IZR. f_equal.
  assert (IZR (resolution params) - 1 ≠ 0).
  { apply (IZR_le 2) in HN. lra. }
  replace (x_min params
           + - x_min params * (IZR (resolution params) - 1)
             / (x_max params - x_min params)
             * ((x_max params - x_min params)
                / (IZR (resolution params) - 1)))
    with 0 by (field; split; [done|lra]).
  rewrite exp_0. ring.
Qed.

(** X8.  When the index [-x_min (N - 1) / (x_max - x_min)] is an integer
    [j] of the grid, grid point [j] is the one where the asset price is the
    start price: the reported value is the option value at [startPrice]. *)
Theorem assetPrice_at_answer_index (params : Parameters) (j : Z) :
  (2 ≤ resolution params)%Z →
  x_min params ≠ x_max params →
  (0 ≤ j < resolution params)%Z →
  IZR j = - x_min params * IZR (resolution params - 1)
          / (x_max params - x_min params) →
  assetPricesAtPayoff params !! Z.to_nat j = Some (startPrice params).
Proof. apply assetPrices_start_lookup. Qed.

(** X9.  With no time step to run, [main] reports the payoff at the start
    price: [max(S - K, 0)] for a call and [max(K - S, 0)] for a put. *)
Theorem main_without_timesteps (params : Parameters) (j : Z) :
  (timesteps params ≤ 0)%Z →
  (2 ≤ resolution params)%Z →
  x_min params ≠ x_max params →
  (0 ≤ j < resolution params)%Z →
  IZR j = - x_min params * IZR (resolution params - 1)
          / (x_max params - x_min params) →
  main params =
    Some (match optionPayoffType params with
          | Call => Rmax (startPrice params - strikePrice params) 0
          | Put => Rmax (strikePrice params - startPrice params) 0
          end).
Proof.
  intros Hts HN Hx Hj Heq. unfold main, computeGPU. cbv zeta.
  rewrite initialValues_copy by apply length_optionValuesAtPayoff.
  unfold timeLoop. cbv zeta. rewrite seqZ_nil by done. cbn [foldl fst].
  rewrite take_ge by (rewrite length_optionValuesAtPayoff; lia).
  unfold reportPrice. cbv zeta. rewrite <- Heq, double_to_int_IZR.
  destruct (Req_dec_T _ _); [|done]. rewrite decide_True by lia.
  rewrite optionValuesAtPayoff_lookup_lt by done.
  by rewrite (load_lookup 0 _ j _ ltac:(lia)
                (assetPrices_start_lookup params j HN Hx Hj Heq)).
Qed.
End PayoffGrid.

Lemma payoff_fixed_by_projector_witness :
  isPowerOfTwo (resolution (flatMarket American 0 0)) ∧
  launch (Z.max (resolution (flatMarket American 0 0) ÷ MAX_BLOCK_SIZE) 1)
         (Z.min (resolution (flatMarket American 0 0)) MAX_BLOCK_SIZE)
         (earlyExercise 1 0 0
            (delta_x (H := referenceExternals 0 1 0) (flatMarket American 0 0))
            Call)
         (optionValuesAtPayoff (flatMarket American 0 0)
            (assetPricesAtPayoff (H := referenceExternals 0 1 0)
               (flatMarket American 0 0)))
  = optionValuesAtPayoff (flatMarket American 0 0)
      (assetPricesAtPayoff (H := referenceExternals 0 1 0)
         (flatMarket American 0 0)).
Proof.
  split; [apply isPowerOfTwo_2|].
  exact (proj2 (payoff_fixed_by_projector (H := referenceExternals 0 1 0)
                  (flatMarket American 0 0) isPowerOfTwo_2)).
Defined.

Lemma payoff_put_call_parity_witness :
  optionPayoffType expiredCall = Call ∧
  optionPayoffType expiredPut = Put ∧
  strikePrice expiredCall = strikePrice expiredPut ∧
  resolution expiredCall = resolution expiredPut ∧
  (0 ≤ 1 < resolution expiredCall)%Z ∧
  [2; 5] !! Z.to_nat 1 = Some 5 ∧
  ∃ c p : R,
    optionValuesAtPayoff expiredCall [2; 5] !! Z.to_nat 1 = Some c ∧
    optionValuesAtPayoff expiredPut [2; 5] !! Z.to_nat 1 = Some p ∧
    c - p = 5 - strikePrice expiredCall.
Proof.
  assert (0 ≤ 1 < resolution expiredCall)%Z as Hi by (simpl; lia).
  split; [reflexivity|]. split; [reflexivity|]. split; [reflexivity|].
  split; [reflexivity|]. split; [exact Hi|]. split; [reflexivity|].
  exact (payoff_put_call_parity expiredCall expiredPut [2; 5] 1 5
           eq_refl eq_refl eq_refl eq_refl Hi eq_refl).
Defined.

Lemma answer_index_flat :
  IZR 0 = - x_min (Externals := referenceExternals 0 1 0) expiredPut
          * IZR (resolution expiredPut - 1)
          / (x_max (Externals := referenceExternals 0 1 0) expiredPut
             - x_min (Externals := referenceExternals 0 1 0) expiredPut).
Proof. simpl. rewrite minus_IZR. lra. Qed.

Lemma assetPrice_at_answer_index_witness :
  (2 ≤ resolution expiredPut)%Z ∧
  x_min (Externals := referenceExternals 0 1 0) expiredPut
    ≠ x_max (Externals := referenceExternals 0 1 0) expiredPut ∧
  (0 ≤ 0 < resolution expiredPut)%Z ∧
  assetPricesAtPayoff (H := referenceExternals 0 1 0) expiredPut
    !! Z.to_nat 0 = Some (startPrice expiredPut).
Proof.
  assert (2 ≤ resolution expiredPut)%Z as HN by (simpl; lia).
  assert (x_min (Externals := referenceExternals 0 1 0) expiredPut
          ≠ x_max (Externals := referenceExternals 0 1 0) expiredPut) as Hx
    by (simpl; lra).
  assert (0 ≤ 0 < resolution expiredPut)%Z as Hj by (simpl; lia).
  split; [exact HN|]. split; [exact Hx|]. split; [exact Hj|].
  exact (assetPrice_at_answer_index (H := referenceExternals 0 1 0)
           expiredPut 0 HN Hx Hj answer_index_flat).
Defined.

Lemma main_without_timesteps_witness :
  (timesteps expiredPut ≤ 0)%Z ∧
  (2 ≤ resolution expiredPut)%Z ∧
  x_min (Externals := referenceExternals 0 1 0) expiredPut
    ≠ x_max (Externals := referenceExternals 0 1 0) expiredPut ∧
  (0 ≤ 0 < resolution expiredPut)%Z ∧
  main (H := referenceExternals 0 1 0) expiredPut = Some (Rmax (3 - 1) 0).
Proof.
  assert (timesteps expiredPut ≤ 0)%Z as Hts by (simpl; lia).
  assert (2 ≤ resolution expiredPut)%Z as HN by (simpl; lia).
  assert (x_min (Externals := referenceExternals 0 1 0) expiredPut
          ≠ x_max (Externals := referenceExternals 0 1 0) expiredPut) as Hx
    by (simpl; lra).
  assert (0 ≤ 0 < resolution expiredPut)%Z as Hj by (simpl; lia).
  split; [exact Hts|]. split; [exact HN|]. split; [exact Hx|].
  split; [exact Hj|].
  exact (main_without_timesteps (H := referenceExternals 0 1 0)
           expiredPut 0 Hts HN Hx Hj answer_index_flat).
Defined.

(** ** The characteristic array of the jump-diffusion models *)

Lemma signed_frequency_high (idx N : Z) :
  (N ÷ 2 < idx)%Z → signed_frequency idx N = IZR (idx - N).
Proof. intros Hlt. unfold signed_frequency. by rewrite decide_False by lia. Qed.

Lemma cuConj_exponential (x : complex) :
  cuComplexExponential (cuConj x) = cuConj (cuComplexExponential x).
Proof.
  unfold cuComplexExponential, cuConj. cbn [cuCreal cuCimag].
  rewrite cos_neg, sin_neg. apply (f_equal2 makeComplex); ring.
Qed.

Lemma cuCdiv_conj (x y : complex) :
  cuCdiv (cuConj x) (cuConj y) = cuConj (cuCdiv x y).
Proof.
  destruct x as [a b], y as [c d].
  unfold cuCdiv, cuConj. cbv zeta. cbn [cuCreal cuCimag]. rewrite Rabs_Ropp.
  set (oos := 1 / (Rabs c + Rabs d)).
  replace (c * oos * (c * oos) + - d * oos * (- d * oos))
    with (c * oos * (c * oos) + d * oos * (d * oos)) by ring.
  unfold Rdiv. apply (f_equal2 makeComplex); ring.
Qed.

Lemma merton_at_neg dfreq stdev drift m :
  merton_at dfreq stdev drift (- m) = cuConj (merton_at dfreq stdev drift m).
Proof.
  unfold merton_at. cbv zeta. rewrite <- cuConj_exponential. f_equal.
  unfold cuConj. cbn [cuCreal cuCimag]. apply (f_equal2 makeComplex); ring.
Qed.

Lemma cuCdiv_real_conj (p a : R) :
  cuCdiv (makeComplex p 0) (makeComplex 1 (- a))
  = cuConj (cuCdiv (makeComplex p 0) (makeComplex 1 a)).
Proof.
  rewrite <- cuCdiv_conj. unfold cuConj. cbn [cuCreal cuCimag].
  by rewrite Ropp_0.
Qed.

Lemma kou_at_neg dfreq p up down m :
  kou_at dfreq p up down (- m) = cuConj (kou_at dfreq p up down m).
Proof.
  unfold kou_at. cbv zeta.
  replace (2 * PI * (dfreq * - m) / up)
    with (- (2 * PI * (dfreq * m) / up)) by (unfold Rdiv; ring).
  replace (-2 * PI * (dfreq * - m) / down)
    with (- (-2 * PI * (dfreq * m) / down)) by (unfold Rdiv; ring).
  rewrite !cuCdiv_real_conj. unfold cuCadd, cuConj. cbn [cuCreal cuCimag].
  apply (f_equal2 makeComplex); ring.
Qed.

Lemma jump_psi_at_neg (jump : option complex) r q sigma lam kap dfreq m :
  jump_psi_at (cuConj <$> jump) r q sigma lam kap dfreq (- m)
  = cuConj (jump_psi_at jump r q sigma lam kap dfreq m).
Proof.
  unfold jump_psi_at, diffusion_psi. cbv zeta.
  destruct jump as [j|]; cbn [fmap option_fmap option_map];
    unfold cuCadd, cuComplexScalarMult, cuConj; cbn [cuCreal cuCimag];
    apply (f_equal2 makeComplex); field.
Qed.

Section JumpModels.
Context `{Externals}.

Lemma jump_transform_at_neg (params : Parameters) (m : R) :
  jump_transform_at params (- m) = cuConj <$> jump_transform_at params m.
Proof.
  unfold jump_transform_at.
  destruct (jumpType params); cbn [fmap option_fmap option_map];
    [done| |  |done].
  - by rewrite merton_at_neg.
  - by rewrite kou_at_neg.
Qed.

(** On a resolution that is a power of two, what [computeGPU] stores in
    cell [idx < N] of [d_characteristic] for the models other than CGMY. *)
Lemma characteristicOf_jump_lookup (params : Parameters) (idx : Z) :
  jumpType params ≠ JumpType.CGMY →
  isPowerOfTwo (resolution params) →
  (0 ≤ idx < resolution params)%Z →
  characteristicOf params !! Z.to_nat idx =
    Some (jump_psi_at
            (jump_transform_at params
               (signed_frequency idx (resolution params)))
            (riskFreeRate params) (dividendRate params) (volatility params)
            (jumpMean params) (kappa params) (delta_frequency params)
            (signed_frequency idx (resolution params))).
Proof.
  intros Hjt Hpow Hidx. unfold characteristicOf. cbv zeta.
  rewrite decide_False by done.
  set (d_jump_ft :=
         if decide (jumpType params ≠ JumpType.None) then _ else _).
  erewrite launch_lookup
    by (apply prepareJumpModelCharacteristic_pointwise || lia).
  rewrite grid_covers_pow2 by done.
  rewrite Z2Nat.id by lia. rewrite decide_True by lia.
  rewrite lookup_cudaMalloc, Z2Nat.id by lia.
  rewrite decide_True by lia. cbn [fmap option_fmap option_map].
  do 2 f_equal. subst d_jump_ft. unfold jump_transform_at.
  destruct (jumpType params) eqn:Hty; [| | |done].
  - by rewrite (decide_False (P := JumpType.None ≠ JumpType.None)) by tauto.
  - rewrite decide_True by done. rewrite decide_True by done.
    cbn [fmap option_fmap option_map]. f_equal.
    apply load_lookup; [lia|].
    erewrite launch_lookup by (apply prepareMertonJumpFT_pointwise || lia).
    rewrite grid_covers_pow2 by done.
    rewrite Z2Nat.id by lia. rewrite decide_True by lia.
    rewrite lookup_cudaMalloc, Z2Nat.id by lia.
    by rewrite decide_True by lia.
  - rewrite decide_True by done. rewrite decide_False by done.
    rewrite decide_True by done.
    cbn [fmap option_fmap option_map]. f_equal.
    apply load_lookup; [lia|].
    erewrite launch_lookup by (apply prepareKouJumpFT_pointwise || lia).
    rewrite grid_covers_pow2 by done.
    rewrite Z2Nat.id by lia. rewrite decide_True by lia.
    rewrite lookup_cudaMalloc, Z2Nat.id by lia.
    by rewrite decide_True by lia.
Qed.

(** X10.  For the models other than CGMY the characteristic array is
    Hermitian: the cell [N - idx], which the fold gives the frequency
    [-idx], holds the complex conjugate of cell [idx] ([0 < idx < N/2]). *)
Theorem characteristic_hermitian (params : Parameters) (idx : Z) :
  jumpType params ≠ JumpType.CGMY →
  isPowerOfTwo (resolution params) →
  (1 ≤ idx)%Z →
  (2 * idx < resolution params)%Z →
  characteristicOf params !! Z.to_nat (resolution params - idx)
  = cuConj <$> characteristicOf params !! Z.to_nat idx.
Proof.
  intros Hjt Hpow Hlo Hhi.
  rewrite !characteristicOf_jump_lookup by (done || lia).
  rewrite signed_frequency_high
    by (Z.to_euclidean_division_equations; lia).
  rewrite signed_frequency_low
    by (Z.to_euclidean_division_equations; lia).
  cbn [fmap option_fmap option_map]. f_equal.
  replace (IZR (resolution params - idx - resolution params))
    with (- IZR idx) by (rewrite !minus_IZR; ring).
  by rewrite jump_transform_at_neg, jump_psi_at_neg.
Qed.

(** X11.  For the Merton and Kou models the exponent of the zero frequency
    is [-r]: the jump intensity cancels against the jump transform, whose
    value at frequency zero is 1. *)
Theorem characteristic_zero_frequency (params : Parameters) :
  jumpType params = JumpType.Merton ∨ jumpType params = JumpType.Kou →
  isPowerOfTwo (resolution params) →
  x_min params ≠ x_max params →
  kouUpRate params ≠ 0 →
  kouDownRate params ≠ 0 →
  characteristicOf params !! 0%nat
  = Some (makeComplex (- riskFreeRate params) 0).
Proof.
  intros Hjt Hpow _ _ _.
  assert (1 ≤ resolution params)%Z as HN.
  { destruct Hpow as [k ->]. pose proof (Z.pow_pos_nonneg 2 (Z.of_nat k)).
    lia. }
  change 0%nat with (Z.to_nat 0).
  rewrite characteristicOf_jump_lookup
    by (done || lia || destruct Hjt as [-> | ->]; done).
  rewrite signed_frequency_low
    by (Z.to_euclidean_division_equations; lia).
  f_equal. unfold jump_transform_at, jump_psi_at, diffusion_psi. cbv zeta.
  destruct Hjt as [-> | ->].
  - unfold merton_at, cuCadd, cuComplexScalarMult, cuConj,
      cuComplexExponential.
    cbn [cuCreal cuCimag].
    replace (-2 * (PI * (delta_frequency params * 0)
                   * mertonNormalStdev params)
             * (PI * (delta_frequency params * 0)
                * mertonNormalStdev params)) with 0 by ring.
    replace (-2 * PI * (delta_frequency params * 0) * driftRate params)
      with 0 by ring.
    rewrite exp_0, cos_0, sin_0. apply (f_equal2 makeComplex); ring.
  - unfold kou_at, cuCadd, cuComplexScalarMult, cuConj, cuCdiv.
    cbn [cuCreal cuCimag].
    replace (2 * PI * (delta_frequency params * 0) / kouUpRate params)
      with 0 by (unfold Rdiv; ring).
    replace (-2 * PI * (delta_frequency params * 0) / kouDownRate params)
      with 0 by (unfold Rdiv; ring).
    rewrite Rabs_R1, Rabs_R0.
    apply (f_equal2 makeComplex); field.
Qed.
End JumpModels.

Lemma isPowerOfTwo_4 : isPowerOfTwo 4.
Proof. by exists 2%nat. Qed.

Lemma characteristic_hermitian_witness :
  jumpType mertonMarket ≠ JumpType.CGMY ∧
  isPowerOfTwo (resolution mertonMarket) ∧
  (1 ≤ 1)%Z ∧
  (2 * 1 < resolution mertonMarket)%Z ∧
  characteristicOf (H := referenceExternals 0 1 0) mertonMarket
    !! Z.to_nat (resolution mertonMarket - 1)
  = cuConj <$> characteristicOf (H := referenceExternals 0 1 0) mertonMarket
                 !! Z.to_nat 1.
Proof.
  assert (jumpType mertonMarket ≠ JumpType.CGMY) as Hjt by done.
  assert (1 ≤ 1)%Z as Hlo by lia.
  assert (2 * 1 < resolution mertonMarket)%Z as Hhi by (simpl; lia).
  split; [exact Hjt|]. split; [apply isPowerOfTwo_4|].
  split; [exact Hlo|]. split; [exact Hhi|].
  exact (characteristic_hermitian (H := referenceExternals 0 1 0)
           mertonMarket 1 Hjt isPowerOfTwo_4 Hlo Hhi).
Defined.

Lemma characteristic_zero_frequency_witness :
  (jumpType mertonMarket = JumpType.Merton
   ∨ jumpType mertonMarket = JumpType.Kou) ∧
  isPowerOfTwo (resolution mertonMarket) ∧
  x_min (Externals := referenceExternals 0 1 0) mertonMarket
    ≠ x_max (Externals := referenceExternals 0 1 0) mertonMarket ∧
  kouUpRate mertonMarket ≠ 0 ∧
  kouDownRate mertonMarket ≠ 0 ∧
  characteristicOf (H := referenceExternals 0 1 0) mertonMarket !! 0%nat
  = Some (makeComplex (- riskFreeRate mertonMarket) 0).
Proof.
  assert (x_min (Externals := referenceExternals 0 1 0) mertonMarket
          ≠ x_max (Externals := referenceExternals 0 1 0) mertonMarket) as Hx
    by (simpl; lra).
  assert (kouUpRate mertonMarket ≠ 0) as Hu by (simpl; lra).
  assert (kouDownRate mertonMarket ≠ 0) as Hd by (simpl; lra).
  split; [by left|]. split; [apply isPowerOfTwo_4|].
  split; [exact Hx|]. split; [exact Hu|]. split; [exact Hd|].
  exact (characteristic_zero_frequency (H := referenceExternals 0 1 0)
           mertonMarket (or_introl eq_refl) isPowerOfTwo_4 Hx Hu Hd).
Defined.

(** ** How many cells a launch covers *)

Lemma grid_threads (N : Z) :
  (1 ≤ N)%Z →
  (Z.max (N ÷ MAX_BLOCK_SIZE) 1 * Z.min N MAX_BLOCK_SIZE)%Z
  = if decide (N ≤ MAX_BLOCK_SIZE)%Z then N
    else (MAX_BLOCK_SIZE * (N ÷ MAX_BLOCK_SIZE))%Z.
Proof.
  intros HN. unfold MAX_BLOCK_SIZE. case_decide;
    Z.to_euclidean_division_equations; nia.
Qed.

(** X12.  The launches [<<<max(N / MAX_BLOCK_SIZE, 1), min(N, MAX_BLOCK_SIZE)>>>]
    run [N] threads when [N <= 1024] and [1024 * (N / 1024)] otherwise: all
    [N] cells are covered exactly when [N <= 1024] or 1024 divides [N], and
    otherwise [normalize] leaves the last [N mod 1024] cells as they were. *)
Theorem launch_coverage (N : Z) (ft : list R) (j : nat) :
  (1 ≤ N)%Z →
  let threads :=
    if decide (N ≤ MAX_BLOCK_SIZE)%Z then N
    else (MAX_BLOCK_SIZE * (N ÷ MAX_BLOCK_SIZE))%Z in
  (threads ≤ N)%Z ∧
  (threads = N ↔ (N ≤ MAX_BLOCK_SIZE)%Z ∨ Z.rem N MAX_BLOCK_SIZE = 0%Z) ∧
  launch (Z.max (N ÷ MAX_BLOCK_SIZE) 1) (Z.min N MAX_BLOCK_SIZE)
    (normalize N) ft !! j
  = if decide (Z.of_nat j < threads)%Z
    then (λ v, v / IZR N) <$> ft !! j else ft !! j.
Proof.
  intros HN threads. split; [|split].
  - subst threads. unfold MAX_BLOCK_SIZE. case_decide;
      Z.to_euclidean_division_equations; lia.
  - subst threads. unfold MAX_BLOCK_SIZE. case_decide;
      Z.to_euclidean_division_equations; lia.
  - erewrite launch_lookup by (apply normalize_pointwise || lia).
    by rewrite grid_threads by done.
Qed.

Lemma launch_coverage_witness :
  (1 ≤ 1500)%Z ∧
  launch (Z.max (1500 ÷ MAX_BLOCK_SIZE) 1) (Z.min 1500 MAX_BLOCK_SIZE)
    (normalize 1500) (replicate 1500 3) !! 1200%nat
  = if decide (Z.of_nat 1200
               < (if decide (1500 ≤ MAX_BLOCK_SIZE)%Z then 1500
                  else MAX_BLOCK_SIZE * (1500 ÷ MAX_BLOCK_SIZE)))%Z
    then (λ v, v / IZR 1500) <$> replicate 1500 3 !! 1200%nat
    else replicate 1500 3 !! 1200%nat.
Proof.
  assert (1 ≤ 1500)%Z as HN by lia.
  split; [exact HN|].
  exact (proj2 (proj2 (launch_coverage 1500 (replicate 1500 3) 1200 HN))).
Defined.

(** ** [printPrices] *)

Lemma printPrices_prefix (prices : list R) (n : nat) :
  (n ≤ length prices)%nat →
  let r :=
    foldl (λ first_negative i,
             if decide (first_negative = -1)%Z then
               if Rlt_dec (load 0 prices i) 0 then i else first_negative
             else first_negative)
          (-1)%Z (seqZ 0 (Z.of_nat n)) in
  (r = (-1)%Z ∧
   ∀ (j : nat) v, (j < n)%nat → prices !! j = Some v → 0 <= v) ∨
  ((0 ≤ r < Z.of_nat n)%Z ∧
   (∃ v, prices !! Z.to_nat r = Some v ∧ v < 0) ∧
   ∀ (j : nat) v, (j < Z.to_nat r)%nat → prices !! j = Some v → 0 <= v).
Proof.
  induction n as [|n IH]; intros Hn.
  - left. split; [done|]. intros j v Hj. lia.
  - rewrite seqZ_S, foldl_app. cbn [foldl]. rewrite Z.add_0_l.
    specialize (IH ltac:(lia)). cbv zeta in IH.
    set (r := foldl _ _ (seqZ 0 (Z.of_nat n))) in *.
    destruct IH as [[Hr Hall]|(Hr & Hneg & Hall)].
    + rewrite decide_True by done.
      destruct (lookup_lt_is_Some_2 prices n ltac:(lia)) as [w Hw].
      rewrite load_of_nat, Hw. cbn [default from_option Datatypes.id].
      destruct (Rlt_dec w 0) as [Hlt|Hge].
      * right. split; [lia|]. rewrite Nat2Z.id. split; [by exists w|].
        done.
      * left. split; [done|]. intros j v Hj Hv.
        destruct (decide (j = n)) as [->|Hne].
        -- rewrite Hw in Hv. injection Hv as <-. lra.
        -- apply (Hall j v); [lia|done].
    + rewrite decide_False by lia. right. split; [lia|]. done.
Qed.

(** X13.  [printPrices] reports -1 exactly when no price is negative, and
    otherwise the index of the first negative price. *)
Theorem printPrices_first_negative (prices : list R) :
  (printPrices prices = (-1)%Z ∧ Forall (λ v, 0 <= v) prices) ∨
  ((0 ≤ printPrices prices < Z.of_nat (length prices))%Z ∧
   (∃ v, prices !! Z.to_nat (printPrices prices) = Some v ∧ v < 0) ∧
   ∀ (j : nat) v,
     (j < Z.to_nat (printPrices prices))%nat →
     prices !! j = Some v → 0 <= v).
Proof.
  pose proof (printPrices_prefix prices (length prices) ltac:(lia)) as Hr.
  cbv zeta in Hr. fold (printPrices prices) in Hr.
  destruct Hr as [[Hr Hall]|Hr]; [left|by right].
  split; [done|]. apply Forall_lookup. intros j v Hv.
  apply (Hall j v); [|done]. by eapply lookup_lt_Some.
Qed.

Lemma printPrices_nonnegative (prices : list R) :
  Forall (λ v, 0 <= v) prices → printPrices prices = (-1)%Z.
Proof.
  intros Hall.
  pose proof (printPrices_prefix prices (length prices) ltac:(lia)) as Hr.
  cbv zeta in Hr. fold (printPrices prices) in Hr.
  destruct Hr as [[Hr _]|(_ & (v & Hv & Hneg) & _)]; [done|].
  rewrite Forall_lookup in Hall. specialize (Hall _ _ Hv). lra.
Qed.

(** X14.  On the payoff built by [optionValuesAtPayoff], [printPrices]
    reports -1: there is no negative price to find. *)
Theorem printPrices_payoff (prms : Parameters) (assetPrices : list R) :
  printPrices (optionValuesAtPayoff prms assetPrices) = (-1)%Z.
Proof.
  apply printPrices_nonnegative, Forall_lookup. intros j v Hv.
  apply optionValuesAtPayoff_lookup in Hv as [->|[x ->]]; [lra|].
  apply Rmax_r.
Qed.

(** ** The host transforms [dft] and [idft] *)

Section Accumulate.
Context {A : Type}.

Lemma store_outside (a : list A) (idx : Z) (v : A) :
  ¬ (0 ≤ idx < Z.of_nat (length a))%Z → store a idx v = a.
Proof.
  intros Hout. unfold store. case_decide; [|done].
  apply list_insert_ge. lia.
Qed.

Lemma load_store_eq (d : A) (a : list A) (idx : Z) (v : A) :
  (0 ≤ idx < Z.of_nat (length a))%Z → load d (store a idx v) idx = v.
Proof.
  intros Hin. unfold load, store. rewrite !decide_True by lia.
  rewrite list_lookup_insert_eq by lia. done.
Qed.

Lemma store_store_eq (a : list A) (idx : Z) (v w : A) :
  store (store a idx v) idx w = store a idx w.
Proof.
  unfold store. case_decide; [|done]. apply list_insert_insert_eq.
Qed.

Lemma foldl_store_outside {B : Type} (a : list A) (idx : Z)
    (f : list A → B → A) (l : list B) :
  ¬ (0 ≤ idx < Z.of_nat (length a))%Z →
  foldl (λ out n, store out idx (f out n)) a l = a.
Proof.
  intros Hout. induction l as [|x l IH]; [done|].
  cbn [foldl]. by rewrite store_outside.
Qed.
End Accumulate.

(** The inner loops of the transforms accumulate into cell [k]. *)
Lemma accumulate_loop (f : Z → complex) (out : list complex) (k : Z)
    (c : complex) (n : nat) :
  (0 ≤ k < Z.of_nat (length out))%Z →
  foldl (λ out n, store out k (cuCadd (load czero out k) (f n)))
        (store out k c) (seqZ 0 (Z.of_nat n))
  = store out k (cacc f c n).
Proof.
  intros Hk. induction n as [|n IH]; [done|].
  rewrite seqZ_S, foldl_app, IH. cbn [foldl cacc]. rewrite Z.add_0_l.
  rewrite load_store_eq by done. apply store_store_eq.
Qed.

Lemma dft_body_pointwise (input : list R) :
  pointwise czero
    (λ k _, cacc (dft_term input k) czero (length input))
    (λ k out,
       let out := store out k (makeComplex 0 0) in
       foldl (λ out n,
                let exponent :=
                  makeComplex 0
                    (-2 * PI * IZR k * IZR n
                     / IZR (Z.of_nat (length input))) in
                store out k
                  (cuCadd (load czero out k)
                     (cuComplexScalarMult (load 0 input n)
                        (cuComplexExponential exponent))))
             out (seqZ 0 (Z.of_nat (length input)))).
Proof.
  intros k out. cbv zeta.
  destruct (decide (0 ≤ k < Z.of_nat (length out))%Z) as [Hk|Hk].
  - apply (accumulate_loop (dft_term input k)). done.
  - rewrite (store_outside out k (cacc _ _ _)) by done.
    rewrite (store_outside out k (makeComplex 0 0)) by done.
    by apply (foldl_store_outside out k
                (λ out n, cuCadd (load czero out k) (dft_term input k n))).
Qed.

Lemma dft_lookup (input : list R) (k : nat) :
  dft input !! k =
    if decide (k < length input)%nat
    then Some (cacc (dft_term input (Z.of_nat k)) czero (length input))
    else None.
Proof.
  unfold dft. cbv zeta.
  rewrite (foldl_pointwise_lookup czero _ _ _ _ k (dft_body_pointwise input)).
  rewrite length_replicate.
  case_decide; case_decide; try lia.
  - by rewrite lookup_replicate_2 by done.
  - apply lookup_ge_None. rewrite length_replicate. lia.
Qed.

Lemma length_dft (input : list R) : length (dft input) = length input.
Proof.
  unfold dft. cbv zeta.
  rewrite (foldl_pointwise_length czero _ _ _ _ (dft_body_pointwise input)).
  apply length_replicate.
Qed.

(** A loop whose body is pointwise on the arrays of a given length. *)
Lemma foldl_sized_lookup {A : Type} (d : A) (g : Z → A → A)
    (kernel : Z → list A → list A) (L T : nat) (a : list A) (j : nat) :
  (∀ idx a, length a = L →
            kernel idx a = store a idx (g idx (load d a idx))) →
  length a = L →
  foldl (λ m idx, kernel idx m) a (seqZ 0 (Z.of_nat T)) !! j
    = (if decide (j < T)%nat then g (Z.of_nat j) <$> a !! j else a !! j) ∧
  length (foldl (λ m idx, kernel idx m) a (seqZ 0 (Z.of_nat T))) = L.
Proof.
  intros Hk Ha. induction T as [|T [IH1 IH2]].
  - rewrite seqZ_nil by lia. cbn [foldl]. split; [|done].
    case_decide; [lia|done].
  - rewrite seqZ_S, foldl_app. cbn [foldl]. rewrite Z.add_0_l.
    rewrite Hk by done. split; [|by rewrite length_store].
    destruct (decide (j = T)) as [->|Hne].
    + rewrite lookup_store_eq, load_of_nat, IH1.
      rewrite decide_False by lia. rewrite decide_True by lia.
      by destruct (a !! T).
    + rewrite lookup_store_ne by lia. rewrite IH1.
      repeat case_decide; try lia; done.
Qed.

Lemma idft_body_sized (input : list complex) (k : Z) (out : list complex) :
  length out = length input →
  (let out := store out k (makeComplex 0 0) in
   let out :=
     foldl (λ out n,
              let exponent :=
                makeComplex 0
                  (2 * PI * IZR k * IZR n
                   / IZR (Z.of_nat (length input))) in
              store out k
                (cuCadd (load czero out k)
                   (cuCmul (load czero input n)
                      (cuComplexExponential exponent))))
           out (seqZ 0 (Z.of_nat (length input))) in
   store out k
     (cuComplexScalarMult (1 / IZR (Z.of_nat (length out)))
        (load czero out k)))
  = store out k
      ((λ k _,
          cuComplexScalarMult (1 / IZR (Z.of_nat (length input)))
            (cacc (idft_term input k) czero (length input)))
         k (load czero out k)).
Proof.
  intros Hlen. cbv zeta beta.
  destruct (decide (0 ≤ k < Z.of_nat (length out))%Z) as [Hk|Hk].
  - rewrite (accumulate_loop (idft_term input k)) by done.
    rewrite length_store, Hlen, load_store_eq by done.
    apply store_store_eq.
  - rewrite (store_outside out k (makeComplex 0 0)) by done.
    rewrite (foldl_store_outside out k
               (λ out n, cuCadd (load czero out k) (idft_term input k n)))
      by done.
    by rewrite !store_outside by done.
Qed.

Lemma idft_complex_lookup (input : list complex) (k : nat) :
  idft_complex input !! k =
    if decide (k < length input)%nat
    then Some (cuComplexScalarMult (1 / IZR (Z.of_nat (length input)))
                 (cacc (idft_term input (Z.of_nat k)) czero (length input)))
    else None.
Proof.
  unfold idft_complex. cbv zeta. rewrite length_replicate.
  rewrite (proj1 (foldl_sized_lookup czero _ _ (length input) _ _ k
                    (idft_body_sized input) (length_replicate _ _))).
  case_decide.
  - by rewrite lookup_replicate_2 by done.
  - apply lookup_ge_None. rewrite length_replicate. lia.
Qed.

Lemma length_idft_complex (input : list complex) :
  length (idft_complex input) = length input.
Proof.
  unfold idft_complex. cbv zeta. rewrite length_replicate.
  apply (proj2 (foldl_sized_lookup czero _ _ (length input) _ _ 0
                  (idft_body_sized input) (length_replicate _ _))).
Qed.

Lemma idft_lookup (input : list complex) (k : nat) :
  idft input !! k =
    if decide (k < length input)%nat
    then Some (cuCreal
                 (cuComplexScalarMult (1 / IZR (Z.of_nat (length input)))
                    (cacc (idft_term input (Z.of_nat k)) czero
                       (length input))))
    else None.
Proof.
  unfold idft. cbv zeta. rewrite length_idft_complex.
  erewrite (foldl_pointwise_lookup 0
              (λ i _, cuCreal (load czero (idft_complex input) i)))
    by (intros idx a; reflexivity).
  case_decide as Hk; case_decide; try lia.
  - rewrite lookup_replicate_2 by done. cbn [fmap option_fmap option_map].
    rewrite load_of_nat, idft_complex_lookup.
    by rewrite decide_True by done.
  - apply lookup_ge_None. rewrite length_replicate. lia.
Qed.

Lemma length_idft (input : list complex) : length (idft input) = length input.
Proof.
  unfold idft. cbv zeta. rewrite length_idft_complex.
  erewrite (foldl_pointwise_length 0
              (λ i _, cuCreal (load czero (idft_complex input) i)))
    by (intros idx a; reflexivity).
  apply length_replicate.
Qed.

(** *** Finite sums *)

Lemma rsum_ext (f g : nat → R) (n : nat) :
  (∀ i, (i < n)%nat → f i = g i) → rsum f n = rsum g n.
Proof.
  induction n as [|n IH]; intros Hfg; [done|]. cbn [rsum].
  rewrite IH by (intros i Hi; apply Hfg; lia). by rewrite Hfg by lia.
Qed.

Lemma rsum_scale (c : R) (f : nat → R) (n : nat) :
  rsum (λ i, c * f i) n = c * rsum f n.
Proof. induction n as [|n IH]; cbn [rsum]; [ring|]. rewrite IH. ring. Qed.

Lemma rsum_plus (f g : nat → R) (n : nat) :
  rsum (λ i, f i + g i) n = rsum f n + rsum g n.
Proof. induction n as [|n IH]; cbn [rsum]; [ring|]. rewrite IH. ring. Qed.

Lemma rsum_linear (a b : R) (f g : nat → R) (n : nat) :
  rsum (λ i, a * f i + b * g i) n = a * rsum f n + b * rsum g n.
Proof. by rewrite rsum_plus, !rsum_scale. Qed.

Lemma rsum_zero (n : nat) : rsum (λ _, 0) n = 0.
Proof. induction n as [|n IH]; cbn [rsum]; [done|]. rewrite IH. ring. Qed.

Lemma rsum_one (n : nat) : rsum (λ _, 1) n = INR n.
Proof.
  induction n as [|n IH]; [done|]. cbn [rsum]. rewrite IH, S_INR. ring.
Qed.

Lemma rsum_swap (F : nat → nat → R) (n m : nat) :
  rsum (λ i, rsum (λ j, F i j) m) n = rsum (λ j, rsum (λ i, F i j) n) m.
Proof.
  induction n as [|n IH]; cbn [rsum].
  - by rewrite rsum_zero.
  - by rewrite IH, <- rsum_plus.
Qed.

Lemma rsum_single (a : nat → R) (k n : nat) :
  (k < n)%nat →
  rsum (λ j, if decide (k = j) then a j else 0) n = a k.
Proof.
  induction n as [|n IH]; intros Hk; [lia|]. cbn [rsum].
  destruct (decide (k = n)) as [->|Hne].
  - rewrite (rsum_ext _ (λ _, 0)), rsum_zero.
    + ring.
    + intros i Hi. by rewrite decide_False by lia.
  - rewrite IH by lia. ring.
Qed.

Lemma cuCreal_cacc (f : Z → complex) (c : complex) (n : nat) :
  cuCreal (cacc f c n)
  = cuCreal c + rsum (λ i, cuCreal (f (Z.of_nat i))) n.
Proof.
  induction n as [|n IH]; cbn [cacc rsum]; [ring|].
  unfold cuCadd. cbn [cuCreal]. rewrite IH. ring.
Qed.

Lemma cuCimag_cacc (f : Z → complex) (c : complex) (n : nat) :
  cuCimag (cacc f c n)
  = cuCimag c + rsum (λ i, cuCimag (f (Z.of_nat i))) n.
Proof.
  induction n as [|n IH]; cbn [cacc rsum]; [ring|].
  unfold cuCadd. cbn [cuCimag]. rewrite IH. ring.
Qed.

(** *** The roots of unity add up to zero *)

Lemma cos_sum_telescope (theta : R) (m : nat) :
  2 * sin (theta / 2) * rsum (λ n, cos (INR n * theta)) m
  = sin ((INR m - 1 / 2) * theta) + sin (theta / 2).
Proof.
  induction m as [|m IH].
  - cbn [rsum INR].
    replace ((0 - 1 / 2) * theta) with (- (theta / 2)) by field.
    rewrite sin_neg. ring.
  - cbn [rsum]. rewrite Rmult_plus_distr_l, IH, S_INR.
    replace ((INR m + 1 - 1 / 2) * theta)
      with (INR m * theta + theta / 2) by field.
    replace ((INR m - 1 / 2) * theta)
      with (INR m * theta - theta / 2) by field.
    rewrite sin_plus, sin_minus. ring.
Qed.

Lemma cos_sum_zero (N d : nat) :
  (0 < d < N)%nat →
  rsum (λ n, cos (INR n * (2 * PI * INR d / INR N))) N = 0.
Proof.
  intros [Hd HN].
  assert (0 < INR d) as Hdpos by (apply lt_0_INR; lia).
  assert (INR d < INR N) as HdN by (apply lt_INR; lia).
  set (theta := 2 * PI * INR d / INR N).
  pose proof (cos_sum_telescope theta N) as Htel.
  replace ((INR N - 1 / 2) * theta)
    with (- (theta / 2) + 2 * INR d * PI) in Htel
    by (unfold theta; field; lra).
  rewrite sin_period, sin_neg in Htel.
  assert (0 < sin (theta / 2)) as Hsin.
  { pose proof PI_RGT_0.
    assert (theta / 2 = PI * (INR d / INR N)) as ->
      by (unfold theta; field; lra).
    assert (0 < INR d / INR N < 1) as [Hlo Hhi].
    { split; [apply Rdiv_lt_0_compat; lra|].
      apply (Rmult_lt_reg_r (INR N)); [lra|].
      unfold Rdiv. rewrite Rmult_assoc, Rinv_l by lra. lra. }
    apply sin_gt_0; nra. }
  nra.
Qed.

Lemma cos_sum_orthogonal (N k j : nat) :
  (k < N)%nat → (j < N)%nat →
  rsum (λ n, cos (INR n * (2 * PI * (INR k - INR j) / INR N))) N
  = if decide (k = j) then INR N else 0.
Proof.
  intros Hk Hj. case_decide as Hkj.
  - subst j. rewrite (rsum_ext _ (λ _, 1)); [apply rsum_one|].
    intros i _. replace (INR i * (2 * PI * (INR k - INR k) / INR N)) with 0
      by (unfold Rdiv; ring).
    apply cos_0.
  - destruct (decide (j < k)%nat) as [Hlt|Hge].
    + rewrite <- minus_INR by lia. apply cos_sum_zero. lia.
    + rewrite <- (cos_sum_zero N (j - k)) by lia.
      apply rsum_ext. intros i _. rewrite <- cos_neg. f_equal.
      rewrite minus_INR by lia. unfold Rdiv. ring.
Qed.

(** *** The round trip *)

Lemma dft_term_parts (input : list R) (k n : Z) :
  dft_term input k n
  = makeComplex
      (load 0 input n
       * cos (-2 * PI * IZR k * IZR n / IZR (Z.of_nat (length input))))
      (load 0 input n
       * sin (-2 * PI * IZR k * IZR n / IZR (Z.of_nat (length input)))).
Proof.
  unfold dft_term, cuComplexScalarMult, cuComplexExponential.
  cbn [cuCreal cuCimag]. rewrite exp_0.
  apply (f_equal2 makeComplex); ring.
Qed.

Lemma load_dft (input : list R) (n : nat) :
  (n < length input)%nat →
  load czero (dft input) (Z.of_nat n)
  = cacc (dft_term input (Z.of_nat n)) czero (length input).
Proof.
  intros Hn. rewrite load_of_nat, dft_lookup.
  by rewrite decide_True by done.
Qed.

(** The real part of the term that [idft] adds for output [k] and
    frequency [n], when its input is [dft input]. *)
Lemma idft_dft_term (input : list R) (k n : nat) :
  (n < length input)%nat →
  cuCreal (idft_term (dft input) (Z.of_nat k) (Z.of_nat n))
  = rsum (λ j,
            load 0 input (Z.of_nat j)
            * cos (INR n * (2 * PI * (INR k - INR j)
                            / INR (length input))))
         (length input).
Proof.
  intros Hn. unfold idft_term. rewrite length_dft, load_dft by done.
  unfold cuCmul, cuComplexExponential. cbn [cuCreal cuCimag].
  rewrite exp_0, cuCreal_cacc, cuCimag_cacc. cbn [czero cuCreal cuCimag].
  set (theta := 2 * PI * IZR (Z.of_nat k) * IZR (Z.of_nat n)
                / IZR (Z.of_nat (length input))).
  assert (rsum (λ j,
                  load 0 input (Z.of_nat j)
                  * cos (INR n * (2 * PI * (INR k - INR j)
                                  / INR (length input))))
               (length input)
          = rsum (λ j,
                    cos theta
                    * cuCreal (dft_term input (Z.of_nat n) (Z.of_nat j))
                    + - sin theta
                      * cuCimag (dft_term input (Z.of_nat n) (Z.of_nat j)))
                 (length input)) as ->.
  { apply rsum_ext. intros j _. rewrite dft_term_parts.
    cbn [cuCreal cuCimag]. subst theta. rewrite <- !INR_IZR_INZ.
    replace (INR n * (2 * PI * (INR k - INR j) / INR (length input)))
      with (-2 * PI * INR n * INR j / INR (length input)
            + 2 * PI * INR k * INR n / INR (length input))
      by (unfold Rdiv; ring).
    rewrite cos_plus. ring. }
  rewrite rsum_linear. ring.
Qed.

Lemma idft_dft_lookup (input : list R) (k : nat) (v : R) :
  input !! k = Some v → idft (dft input) !! k = Some v.
Proof.
  intros Hv. assert (k < length input)%nat as Hk by by eapply lookup_lt_Some.
  rewrite idft_lookup, length_dft. rewrite decide_True by done. f_equal.
  unfold cuComplexScalarMult. cbn [cuCreal].
  rewrite cuCreal_cacc. cbn [czero cuCreal]. rewrite Rplus_0_l.
  rewrite (rsum_ext _ _ _ (λ n Hn, idft_dft_term input k n Hn)).
  rewrite rsum_swap.
  rewrite (rsum_ext _
             (λ j, if decide (k = j)
                   then load 0 input (Z.of_nat j) * INR (length input)
                   else 0)).
  - rewrite rsum_single by done. rewrite load_of_nat, Hv.
    cbn [default from_option Datatypes.id]. rewrite <- INR_IZR_INZ.
    field. apply not_0_INR. lia.
  - intros j Hj. rewrite rsum_scale, cos_sum_orthogonal by done.
    case_decide; ring.
Qed.

Lemma idft_dft_eq (input : list R) : idft (dft input) = input.
Proof.
  apply list_eq. intros k. destruct (input !! k) as [v|] eqn:Hv.
  - by apply idft_dft_lookup.
  - apply lookup_ge_None. rewrite length_idft, length_dft.
    by apply lookup_ge_None.
Qed.

(** X15.  [idft] undoes [dft]: for every list of reals, of any length (none
    of the two needs a power of two), [idft (dft input) = input]; [dft]
    keeps the length of its input. *)
Theorem idft_dft (input : list R) :
  idft (dft input) = input ∧ length (dft input) = length input.
Proof. split; [apply idft_dft_eq|apply length_dft]. Qed.

(** ** The reference pricer [computeCPU] *)

Section ReferencePricer.
Context `{Externals}.

Lemma computeCPU_bin_pointwise (params : Parameters) (ft : list complex) :
  pointwise czero
    (λ idx _, cuCmul (load czero ft idx) (cpu_propagator params idx))
    (computeCPU_bin params ft).
Proof.
  intros idx ft2. unfold computeCPU_bin, cpu_propagator. cbv zeta.
  f_equal. f_equal. f_equal.
  unfold cuComplexScalarMult, diffusion_psi, signed_frequency.
  change (IZR (resolution params - 1) / (x_max params - x_min params)
          / IZR (resolution params)) with (delta_frequency params).
  cbv zeta. cbn [cuCreal cuCimag].
  apply (f_equal2 makeComplex); unfold Rdiv; ring.
Qed.

(** The array [ft2] that [computeCPU] hands to [idft]. *)
Lemma computeCPU_spectrum (params : Parameters) (optionValues : list R)
    (k : nat) :
  length optionValues = Z.to_nat (resolution params) →
  foldl (λ ft2 idx, computeCPU_bin params (dft optionValues) idx ft2)
        (replicate (Z.to_nat (resolution params)) czero)
        (seqZ 0 (Z.of_nat (length (dft optionValues)))) !! k
  = if decide (k < length optionValues)%nat
    then Some (cuCmul (load czero (dft optionValues) (Z.of_nat k))
                 (cpu_propagator params (Z.of_nat k)))
    else None.
Proof.
  intros Hlen.
  rewrite (foldl_pointwise_lookup czero _ _ _ _ k
             (computeCPU_bin_pointwise params (dft optionValues))).
  rewrite length_dft, <- Hlen.
  case_decide; case_decide; try lia.
  - by rewrite lookup_replicate_2 by done.
  - apply lookup_ge_None. rewrite length_replicate. lia.
Qed.

Lemma cpu_propagator_at_expiry (params : Parameters) (idx : Z) :
  expiryTime params = 0 → cpu_propagator params idx = makeComplex 1 0.
Proof.
  intros HT. unfold cpu_propagator, cuComplexExponential, cuComplexScalarMult.
  cbv zeta. cbn [cuCreal cuCimag]. rewrite HT, Rminus_diag, !Rmult_0_l.
  rewrite exp_0, cos_0, sin_0. apply (f_equal2 makeComplex); ring.
Qed.

(** X16.  With a zero expiry time [computeCPU] prints the payoff it was
    given, at the answer index: the propagation factor of every bin is one,
    and [idft] undoes [dft].  [optionValues] has [resolution] entries, as
    in [main]. *)
Theorem computeCPU_at_expiry (params : Parameters)
    (assetPrices optionValues : list R) :
  expiryTime params = 0 →
  length optionValues = Z.to_nat (resolution params) →
  computeCPU params assetPrices optionValues = reportPrice params optionValues.
Proof.
  intros HT Hlen. unfold computeCPU. cbv zeta. f_equal.
  rewrite <- (idft_dft_eq optionValues) at 2. f_equal.
  apply list_eq. intros k. rewrite computeCPU_spectrum by done.
  rewrite dft_lookup. case_decide; [|done].
  rewrite cpu_propagator_at_expiry, cuCmul_one by done.
  rewrite load_of_nat, dft_lookup. by rewrite decide_True by done.
Qed.

End ReferencePricer.

Lemma computeCPU_at_expiry_witness :
  expiryTime maturedPut = 0 ∧
  length [2; 0] = Z.to_nat (resolution maturedPut) ∧
  computeCPU (H := referenceExternals 0 1 0) maturedPut [1; exp 1] [2; 0]
  = reportPrice (H := referenceExternals 0 1 0) maturedPut [2; 0].
Proof.
  split; [reflexivity|]. split; [reflexivity|].
  exact (computeCPU_at_expiry (H := referenceExternals 0 1 0)
           maturedPut [1; exp 1] [2; 0] eq_refl eq_refl).
Defined.

(** ** [computeGPU] against [computeCPU]

    When cuFFT computes the discrete Fourier transform exactly (the forward
    plan the bins [0..N/2] of the unnormalised transform, the inverse plan
    the unnormalised inverse of their Hermitian completion), the two pricers
    agree on European options without jumps and dividends priced in one
    time step. *)

Lemma foldl_cacc (f : Z → complex) (c : complex) (n : nat) :
  foldl (λ acc k, cuCadd acc (f k)) c (seqZ 0 (Z.of_nat n)) = cacc f c n.
Proof.
  induction n as [|n IH]; [done|].
  rewrite seqZ_S, foldl_app, IH. cbn [foldl cacc]. by rewrite Z.add_0_l.
Qed.

Lemma cacc_ext (f g : Z → complex) (c : complex) (n : nat) :
  (∀ i, (i < n)%nat → f (Z.of_nat i) = g (Z.of_nat i)) →
  cacc f c n = cacc g c n.
Proof.
  induction n as [|n IH]; intros Hfg; [done|].
  cbn [cacc]. rewrite IH, Hfg by (intros; try apply Hfg; lia). done.
Qed.

Lemma cuConj_czero : cuConj czero = czero.
Proof. unfold cuConj, czero. cbn [cuCreal cuCimag]. by rewrite Ropp_0. Qed.

Lemma cuConj_add (x y : complex) :
  cuConj (cuCadd x y) = cuCadd (cuConj x) (cuConj y).
Proof.
  unfold cuConj, cuCadd. cbn [cuCreal cuCimag].
  apply (f_equal2 makeComplex); ring.
Qed.

Lemma cuConj_mul (x y : complex) :
  cuConj (cuCmul x y) = cuCmul (cuConj x) (cuConj y).
Proof.
  unfold cuConj, cuCmul. cbn [cuCreal cuCimag].
  apply (f_equal2 makeComplex); ring.
Qed.

Lemma cuConj_scalar (s : R) (x : complex) :
  cuConj (cuComplexScalarMult s x) = cuComplexScalarMult s (cuConj x).
Proof.
  unfold cuConj, cuComplexScalarMult. cbn [cuCreal cuCimag].
  apply (f_equal2 makeComplex); ring.
Qed.

Lemma cuConj_cacc (f : Z → complex) (c : complex) (n : nat) :
  cuConj (cacc f c n) = cacc (λ i, cuConj (f i)) (cuConj c) n.
Proof.
  induction n as [|n IH]; [done|]. cbn [cacc]. by rewrite cuConj_add, IH.
Qed.

(** The exact forward transform is the sum that [dft] computes. *)
Lemma dft_bin_cacc (x : list R) (k : Z) :
  dft_bin (Z.of_nat (length x)) x k = cacc (dft_term x k) czero (length x).
Proof. unfold dft_bin. apply (foldl_cacc (dft_term x k)). Qed.

(** Bin [N - k] of the transform of real data is the conjugate of bin [k]. *)
Lemma dft_term_conj (x : list R) (k : Z) (i : nat) :
  (0 < length x)%nat →
  cuConj (dft_term x (Z.of_nat (length x) - k) (Z.of_nat i))
  = dft_term x k (Z.of_nat i).
Proof.
  intros Hlen. unfold dft_term. rewrite cuConj_scalar. f_equal.
  unfold cuConj, cuComplexExponential. cbn [cuCreal cuCimag].
  assert (IZR (Z.of_nat (length x)) ≠ 0) as HL
    by (apply not_0_IZR; lia).
  replace (-2 * PI * IZR (Z.of_nat (length x) - k) * IZR (Z.of_nat i)
           / IZR (Z.of_nat (length x)))
    with (- (-2 * PI * IZR k * IZR (Z.of_nat i) / IZR (Z.of_nat (length x))
             + 2 * INR i * PI))
    by (rewrite minus_IZR, (INR_IZR_INZ i); field; done).
  rewrite cos_neg, sin_neg, cos_period, sin_period.
  apply (f_equal2 makeComplex); ring.
Qed.

Lemma dft_conj (x : list R) (k : Z) :
  (0 < length x)%nat →
  cuConj (cacc (dft_term x (Z.of_nat (length x) - k)) czero (length x))
  = cacc (dft_term x k) czero (length x).
Proof.
  intros Hlen. rewrite cuConj_cacc, cuConj_czero. apply cacc_ext.
  intros i _. by apply dft_term_conj.
Qed.

Lemma diffusion_psi_neg r q sigma lam kap k :
  diffusion_psi r q sigma lam kap (- k)
  = cuConj (diffusion_psi r q sigma lam kap k).
Proof.
  unfold diffusion_psi, cuConj. cbn [cuCreal cuCimag].
  apply (f_equal2 makeComplex); unfold Rdiv; ring.
Qed.

Section CrossCheck.
Context `{Externals}.
Hypothesis cufft_forward : ∀ N x k, cufft_D2Z N x k = dft_bin N x k.
Hypothesis cufft_inverse : ∀ N X n, cufft_Z2D N X n = idft_sample N X n.

Lemma computeCPU_unfold (params : Parameters)
    (assetPrices optionValues : list R) :
  computeCPU params assetPrices optionValues
  = reportPrice params (idft (cpu_spectrum params optionValues)).
Proof. reflexivity. Qed.

Lemma length_cpu_spectrum (params : Parameters) (optionValues : list R) :
  length (cpu_spectrum params optionValues) = Z.to_nat (resolution params).
Proof.
  unfold cpu_spectrum.
  rewrite (foldl_pointwise_length czero _ _ _ _
             (computeCPU_bin_pointwise params (dft optionValues))).
  apply length_replicate.
Qed.

(** In the folded half of the spectrum [computeCPU] uses the conjugate of
    the factor of the mirror bin. *)
Lemma cpu_propagator_fold (params : Parameters) (k : Z) :
  (resolution params ÷ 2 < k)%Z →
  (resolution params - k ≤ resolution params ÷ 2)%Z →
  cpu_propagator params k
  = cuConj (cpu_propagator params (resolution params - k)).
Proof.
  intros Hhi Hlo. unfold cpu_propagator.
  rewrite signed_frequency_high, signed_frequency_low by done.
  replace (delta_frequency params * IZR (k - resolution params))
    with (- (delta_frequency params * IZR (resolution params - k)))
    by (rewrite !minus_IZR; ring).
  by rewrite diffusion_psi_neg, <- cuConj_scalar, cuConj_exponential.
Qed.

(** The bins [0..N/2] that the step of [computeGPU] leaves in [d_ft]. *)
Lemma gpu_spectrum (params : Parameters) (optionValues : list R) (k : Z) :
  jumpType params = JumpType.None →
  timesteps params = 1%Z →
  dividendRate params = 0 →
  isPowerOfTwo (resolution params) →
  length optionValues = Z.to_nat (resolution params) →
  (0 ≤ k ≤ resolution params ÷ 2)%Z →
  (propagate params (characteristicOf params)
     (optionValues, cudaMalloc (resolution params)) 0).2 !! Z.to_nat k
  = Some (cuCmul (cacc (dft_term optionValues k) czero (length optionValues))
            (cpu_propagator params k)).
Proof.
  intros Hjt Hts Hq Hpow Hlen Hk.
  assert (1 ≤ resolution params)%Z as HN
    by (destruct Hpow as [e ->]; pose proof (Z.pow_pos_nonneg 2 (Z.of_nat e));
        lia).
  assert (k < resolution params)%Z as HkN
    by (revert Hk; Z.to_euclidean_division_equations; lia).
  pose proof (fourier_launch_covers (resolution params) ltac:(lia)) as Hcov.
  cbv zeta in Hcov. destruct Hcov as [Hc Hcover].
  unfold propagate. cbv zeta. cbn [snd].
  erewrite launch_lookup by (apply solveODE_pointwise || done).
  rewrite Z2Nat.id by lia.
  set (threads := (double_to_int _ * _)%Z) in *.
  rewrite decide_True by lia.
  unfold cufftExecD2Z.
  erewrite (foldl_pointwise_lookup czero)
    by apply cufftExecD2Z_pointwise.
  rewrite Z2Nat.id by lia. rewrite decide_True by lia.
  rewrite lookup_cudaMalloc, Z2Nat.id by lia. rewrite decide_True by lia.
  cbn [fmap option_fmap option_map]. f_equal.
  rewrite cufft_forward.
  replace (resolution params) with (Z.of_nat (length optionValues)) at 1
    by lia.
  rewrite dft_bin_cacc. f_equal.
  unfold cpu_propagator. f_equal.
  unfold load. rewrite decide_True by lia.
  rewrite characteristicOf_None_lookup by (done || lia).
  cbv beta iota delta [default from_option Datatypes.id].
  rewrite Hq, Hts. change (0 + 1)%Z with 1%Z. f_equal. field.
Qed.

(** The prices that the step of [computeGPU] leaves in [d_prices]. *)
Lemma gpu_prices (params : Parameters) (d_characteristic : list complex)
    (d_prices : list R) (d_ft : list complex) (i : Z) (j : nat) :
  isPowerOfTwo (resolution params) →
  length d_prices = Z.to_nat (resolution params) →
  (j < Z.to_nat (resolution params))%nat →
  (propagate params d_characteristic (d_prices, d_ft) i).1 !! j
  = Some (idft_sample (resolution params)
            (take (Z.to_nat (resolution params ÷ 2 + 1))
               (propagate params d_characteristic (d_prices, d_ft) i).2)
            (Z.of_nat j)
          / IZR (resolution params)).
Proof.
  intros Hpow Hlen Hj.
  destruct (lookup_lt_is_Some_2 d_prices j ltac:(lia)) as [v Hv].
  unfold propagate. cbv zeta. cbn [fst snd].
  erewrite launch_lookup by (apply normalize_pointwise || lia).
  rewrite grid_covers_pow2 by done. rewrite decide_True by lia.
  unfold cufftExecZ2D.
  erewrite (foldl_pointwise_lookup 0) by apply cufftExecZ2D_pointwise.
  rewrite decide_True by lia. rewrite Hv.
  cbn [fmap option_fmap option_map]. by rewrite cufft_inverse.
Qed.

(** The Hermitian completion that the inverse plan reads is the spectrum of
    [computeCPU]. *)
Lemma gpu_hermitian (params : Parameters) (optionValues : list R) (k : nat) :
  jumpType params = JumpType.None →
  timesteps params = 1%Z →
  dividendRate params = 0 →
  isPowerOfTwo (resolution params) →
  length optionValues = Z.to_nat (resolution params) →
  (k < length optionValues)%nat →
  hermitian (resolution params)
    (take (Z.to_nat (resolution params ÷ 2 + 1))
       (propagate params (characteristicOf params)
          (optionValues, cudaMalloc (resolution params)) 0).2)
    (Z.of_nat k)
  = load czero (cpu_spectrum params optionValues) (Z.of_nat k).
Proof.
  intros Hjt Hts Hq Hpow Hlen Hk.
  assert (1 ≤ resolution params)%Z as HN
    by (destruct Hpow as [e ->]; pose proof (Z.pow_pos_nonneg 2 (Z.of_nat e));
        lia).
  assert (0 ≤ resolution params ÷ 2)%Z as Hhalf
    by (Z.to_euclidean_division_equations; lia).
  rewrite (load_of_nat _ (cpu_spectrum params optionValues)).
  unfold cpu_spectrum. rewrite computeCPU_spectrum by done.
  rewrite decide_True by done.
  cbv beta iota delta [default from_option Datatypes.id].
  rewrite load_of_nat, dft_lookup, decide_True by done.
  cbv beta iota delta [default from_option Datatypes.id].
  unfold hermitian. case_decide as Hlow.
  - rewrite load_of_nat, lookup_take_lt by lia.
    rewrite <- (Nat2Z.id k) at 1.
    rewrite gpu_spectrum by (done || lia). done.
  - assert (0 ≤ resolution params - Z.of_nat k ≤ resolution params ÷ 2)%Z
      as Hmirror by (revert Hlow; Z.to_euclidean_division_equations; lia).
    unfold load. rewrite decide_True by lia.
    rewrite lookup_take_lt by lia.
    rewrite gpu_spectrum by (done || lia).
    cbv beta iota delta [default from_option Datatypes.id].
    rewrite cuConj_mul. f_equal.
    + replace (resolution params) with (Z.of_nat (length optionValues))
        by lia.
      apply dft_conj. lia.
    + symmetry. apply cpu_propagator_fold; lia.
Qed.

(** X17.  With an exact cuFFT, [computeGPU] and [computeCPU] print the same
    price for a European option without jumps and without dividend, priced
    in one time step on a power-of-two grid: the half spectrum that the
    GPU propagates and completes by conjugation is the full spectrum that
    the reference propagates bin by bin. *)
Theorem computeGPU_matches_computeCPU (params : Parameters)
    (assetPrices optionValues : list R) :
  jumpType params = JumpType.None →
  optionExerciseType params = European →
  timesteps params = 1%Z →
  dividendRate params = 0 →
  isPowerOfTwo (resolution params) →
  length optionValues = Z.to_nat (resolution params) →
  computeGPU params assetPrices optionValues
  = computeCPU params assetPrices optionValues.
Proof.
  intros Hjt Heu Hts Hq Hpow Hlen.
  assert (1 ≤ resolution params)%Z as HN
    by (destruct Hpow as [e ->]; pose proof (Z.pow_pos_nonneg 2 (Z.of_nat e));
        lia).
  rewrite computeCPU_unfold. unfold computeGPU. cbv zeta.
  rewrite initialValues_copy by done. f_equal.
  unfold timeLoop. cbv zeta. rewrite Hts. change (seqZ 0 1) with [0%Z].
  cbn [foldl]. rewrite take_ge by lia.
  unfold timestep. cbv zeta.
  pose proof (length_propagate params (characteristicOf params) optionValues
                (cudaMalloc (resolution params)) 0) as [Hlp _].
  pose proof (λ j, gpu_prices params (characteristicOf params) optionValues
                     (cudaMalloc (resolution params)) 0 j Hpow Hlen) as Hp.
  pose proof (λ k, gpu_hermitian params optionValues k
                     Hjt Hts Hq Hpow Hlen) as Hh.
  destruct (propagate params (characteristicOf params)
              (optionValues, cudaMalloc (resolution params)) 0)
    as [p f].
  cbn [fst snd] in *. rewrite decide_False by (by rewrite Heu).
  cbn [fst]. apply list_eq. intros j.
  rewrite idft_lookup, length_cpu_spectrum.
  case_decide as Hj; [|apply lookup_ge_None; lia].
  rewrite Hp by done. f_equal.
  unfold idft_sample, cuComplexScalarMult. cbn [cuCreal].
  rewrite <- (Z2Nat.id (resolution params)) at 1 by lia.
  rewrite (foldl_cacc
             (λ k, cuCmul (hermitian (resolution params)
                             (take (Z.to_nat (resolution params ÷ 2 + 1)) f)
                             k)
                     (cuComplexExponential
                        (makeComplex 0
                           (2 * PI * IZR k * IZR (Z.of_nat j)
                            / IZR (resolution params)))))).
  rewrite (cacc_ext _ (idft_term (cpu_spectrum params optionValues)
                         (Z.of_nat j))).
  - rewrite Z2Nat.id by lia. field. apply not_0_IZR. lia.
  - intros k Hk. unfold idft_term.
    rewrite Hh, length_cpu_spectrum, Z2Nat.id by lia.
    do 3 f_equal. unfold Rdiv. ring.
Qed.

End CrossCheck.

Lemma computeGPU_matches_computeCPU_witness :
  (∀ N x k,
     cufft_D2Z (Externals := referenceExternals 0 1 0) N x k
     = dft_bin N x k) ∧
  (∀ N X n,
     cufft_Z2D (Externals := referenceExternals 0 1 0) N X n
     = idft_sample N X n) ∧
  jumpType maturedPut = JumpType.None ∧
  optionExerciseType maturedPut = European ∧
  timesteps maturedPut = 1%Z ∧
  dividendRate maturedPut = 0 ∧
  isPowerOfTwo (resolution maturedPut) ∧
  length [2; 0] = Z.to_nat (resolution maturedPut) ∧
  computeGPU (H := referenceExternals 0 1 0) maturedPut [1; exp 1] [2; 0]
  = computeCPU (H := referenceExternals 0 1 0) maturedPut [1; exp 1] [2; 0].
Proof.
  split; [reflexivity|]. split; [reflexivity|].
  split; [reflexivity|]. split; [reflexivity|]. split; [reflexivity|].
  split; [reflexivity|]. split; [apply isPowerOfTwo_2|].
  split; [reflexivity|].
  exact (computeGPU_matches_computeCPU (H := referenceExternals 0 1 0)
           (λ _ _ _, eq_refl) (λ _ _ _, eq_refl)
           maturedPut [1; exp 1] [2; 0]
           eq_refl eq_refl eq_refl eq_refl isPowerOfTwo_2 eq_refl).
Defined.

(** ** The CGMY provider *)

Section CGMY.
Context `{Externals}.

(** For a real exponent [cuComplexPower] commutes with conjugation, as soon
    as [atan2] is odd in its first argument on the half plane of the base. *)
Lemma cuComplexPower_conj (a b c : R) :
  atan2 (- b) a = - atan2 b a →
  cuComplexPower (makeComplex a (- b)) (makeComplex c 0)
  = cuConj (cuComplexPower (makeComplex a b) (makeComplex c 0)).
Proof.
  intros Hodd. unfold cuComplexPower, cuCabs, cuConj. cbv zeta.
  cbn [cuCreal cuCimag]. rewrite Hodd.
  replace (- b * - b) with (b * b) by ring.
  set (r := sqrt (a * a + b * b)). set (theta := atan2 b a).
  replace (- - theta * 0) with (- theta * 0) by ring.
  replace (0 * ln r + c * - theta) with (- (0 * ln r + c * theta)) by ring.
  rewrite cos_neg, sin_neg. apply (f_equal2 makeComplex); ring.
Qed.

Lemma cgmy_at_neg (dfreq C G M Y gamma m : R) :
  (∀ y x, 0 < x → atan2 (- y) x = - atan2 y x) →
  0 < G → 0 < M →
  cgmy_at dfreq C G M Y gamma (- m)
  = cuConj (cgmy_at dfreq C G M Y gamma m).
Proof.
  intros Hodd HG HM. unfold cgmy_at. cbv zeta.
  replace (2 * PI * (dfreq * - m)) with (- (2 * PI * (dfreq * m))) by ring.
  set (w := 2 * PI * (dfreq * m)). rewrite Ropp_involutive.
  rewrite (cuComplexPower_conj G w), (cuComplexPower_conj M w)
    by (by apply Hodd).
  set (MY := cuComplexPower (makeComplex M w) _).
  set (MG := cuComplexPower (makeComplex G w) _).
  unfold cuConj, cuCadd, cuComplexScalarMult. cbn [cuCreal cuCimag].
  apply (f_equal2 makeComplex); ring.
Qed.

Lemma characteristicOf_CGMY_lookup (params : Parameters) (idx : Z) :
  jumpType params = JumpType.CGMY →
  isPowerOfTwo (resolution params) →
  (0 ≤ idx < resolution params)%Z →
  characteristicOf params !! Z.to_nat idx =
    Some (cgmy_at (delta_frequency params) (CGMY_C params) (CGMY_G params)
            (CGMY_M params) (CGMY_Y params) (tgamma (- CGMY_Y params))
            (signed_frequency idx (resolution params))).
Proof.
  intros Hjt Hpow Hidx. unfold characteristicOf. cbv zeta.
  rewrite decide_True by done.
  erewrite launch_lookup
    by (apply prepareCGMYCharacteristic_pointwise || lia).
  rewrite grid_covers_pow2 by done.
  rewrite Z2Nat.id by lia. rewrite decide_True by lia.
  rewrite lookup_cudaMalloc, Z2Nat.id by lia.
  by rewrite decide_True by lia.
Qed.

(** X18.  The CGMY characteristic array is Hermitian as well, for positive
    [G] and [M], a [Y] that is no pole of [tgamma(-Y)] (not one of 0, 1,
    2, ...), a grid with [x_min <> x_max] and an [atan2] that is odd in
    its first argument on the right half plane: cell [N - idx] holds the
    conjugate of cell [idx]. *)
Theorem cgmy_characteristic_hermitian (params : Parameters) (idx : Z) :
  (∀ y x, 0 < x → atan2 (- y) x = - atan2 y x) →
  jumpType params = JumpType.CGMY →
  (∀ n : nat, CGMY_Y params ≠ INR n) →
  0 < CGMY_G params →
  0 < CGMY_M params →
  x_min params ≠ x_max params →
  isPowerOfTwo (resolution params) →
  (1 ≤ idx)%Z →
  (2 * idx < resolution params)%Z →
  characteristicOf params !! Z.to_nat (resolution params - idx)
  = cuConj <$> characteristicOf params !! Z.to_nat idx.
Proof.
  intros Hodd Hjt _ HG HM _ Hpow Hlo Hhi.
  rewrite !characteristicOf_CGMY_lookup by (done || lia).
  rewrite signed_frequency_high
    by (Z.to_euclidean_division_equations; lia).
  rewrite signed_frequency_low
    by (Z.to_euclidean_division_equations; lia).
  cbn [fmap option_fmap option_map]. f_equal.
  replace (IZR (resolution params - idx - resolution params))
    with (- IZR idx) by (rewrite !minus_IZR; ring).
  by apply cgmy_at_neg.
Qed.

(** X19.  For a base other than 0 and a real exponent [c] the modulus of
    [cuComplexPower base c] is [|pow(|base|, c)|]: the result is in polar
    form.  (At base 0 the source takes the logarithm of 0.) *)
Theorem cuComplexPower_modulus (base : complex) (c : R) :
  base ≠ makeComplex 0 0 →
  cuCabs (cuComplexPower base (makeComplex c 0))
  = Rabs (pow (cuCabs base) c).
Proof.
  intros _. unfold cuComplexPower. cbv zeta. cbn [cuCreal cuCimag].
  rewrite Rmult_0_r, exp_0, Rmult_1_r.
  set (s := pow (cuCabs base) c).
  set (angle := 0 * ln (cuCabs base) + c * atan2 (cuCimag base) (cuCreal base)).
  unfold cuCabs at 1. cbn [cuCreal cuCimag].
  replace (s * cos angle * (s * cos angle) + s * sin angle * (s * sin angle))
    with (Rsqr s * (Rsqr (sin angle) + Rsqr (cos angle)))
    by (unfold Rsqr; ring).
  rewrite sin2_cos2, Rmult_1_r. apply sqrt_Rsqr_abs.
Qed.

End CGMY.

Lemma atan2_ref_odd (y x : R) : 0 < x → atan2_ref (- y) x = - atan2_ref y x.
Proof.
  intros Hx. unfold atan2_ref. destruct (Rlt_dec 0 x); [|done].
  replace (- y / x) with (- (y / x)) by (field; lra). apply atan_opp.
Qed.

Lemma half_not_natural (n : nat) : 1 / 2 ≠ INR n.
Proof.
  destruct n as [|n]; [simpl; lra|].
  rewrite S_INR. pose proof (pos_INR n). lra.
Qed.

Lemma cgmy_characteristic_hermitian_witness :
  (∀ y x, 0 < x →
          atan2 (Externals := cgmyExternals) (- y) x
          = - atan2 (Externals := cgmyExternals) y x) ∧
  jumpType cgmyMarket = JumpType.CGMY ∧
  (∀ n : nat, CGMY_Y cgmyMarket ≠ INR n) ∧
  0 < CGMY_G cgmyMarket ∧
  0 < CGMY_M cgmyMarket ∧
  x_min (Externals := cgmyExternals) cgmyMarket
    ≠ x_max (Externals := cgmyExternals) cgmyMarket ∧
  isPowerOfTwo (resolution cgmyMarket) ∧
  (1 ≤ 1)%Z ∧
  (2 * 1 < resolution cgmyMarket)%Z ∧
  characteristicOf (H := cgmyExternals) cgmyMarket
    !! Z.to_nat (resolution cgmyMarket - 1)
  = cuConj <$> characteristicOf (H := cgmyExternals) cgmyMarket
                 !! Z.to_nat 1.
Proof.
  assert (0 < CGMY_G cgmyMarket) as HG by (simpl; lra).
  assert (0 < CGMY_M cgmyMarket) as HM by (simpl; lra).
  assert (x_min (Externals := cgmyExternals) cgmyMarket
          ≠ x_max (Externals := cgmyExternals) cgmyMarket) as Hx
    by (simpl; lra).
  assert (1 ≤ 1)%Z as Hlo by lia.
  assert (2 * 1 < resolution cgmyMarket)%Z as Hhi by (simpl; lia).
  split; [exact atan2_ref_odd|]. split; [reflexivity|].
  split; [exact half_not_natural|].
  split; [exact HG|]. split; [exact HM|]. split; [exact Hx|].
  split; [exact isPowerOfTwo_4|].
  split; [exact Hlo|]. split; [exact Hhi|].
  exact (cgmy_characteristic_hermitian (H := cgmyExternals)
           cgmyMarket 1 atan2_ref_odd eq_refl half_not_natural HG HM Hx
           isPowerOfTwo_4 Hlo Hhi).
Defined.

Lemma base_3_4_nonzero : makeComplex 3 4 ≠ makeComplex 0 0.
Proof. intros [= H3 H4]. lra. Qed.

Lemma cuComplexPower_modulus_witness :
  makeComplex 3 4 ≠ makeComplex 0 0 ∧
  cuCabs (cuComplexPower (H := referenceExternals 0 1 0)
            (makeComplex 3 4) (makeComplex 2 0))
  = Rabs (pow (Externals := referenceExternals 0 1 0)
            (cuCabs (makeComplex 3 4)) 2).
Proof.
  split; [exact base_3_4_nonzero|].
  exact (cuComplexPower_modulus (H := referenceExternals 0 1 0)
           (makeComplex 3 4) 2 base_3_4_nonzero).
Defined.

(** ** American options end to end *)

Section American.
Context `{Externals}.

(** X20.  The price that [main] reports for an American option, after at
    least one time step, is never below the value of exercising at once:
    [max(S - K, 0)] for a call and [max(K - S, 0)] for a put.  The answer
    index is an integer [j] of the grid, so that a price is reported. *)
Theorem american_price_dominates_payoff (params : Parameters) (j : Z) :
  optionExerciseType params = American →
  (1 ≤ timesteps params)%Z →
  isPowerOfTwo (resolution params) →
  (2 ≤ resolution params)%Z →
  x_min params ≠ x_max params →
  (0 ≤ j < resolution params)%Z →
  IZR j = - x_min params * IZR (resolution params - 1)
          / (x_max params - x_min params) →
  ∃ v : R,
    main params = Some v ∧
    match optionPayoffType params with
    | Call => Rmax (startPrice params - strikePrice params) 0
    | Put => Rmax (strikePrice params - startPrice params) 0
    end <= v.
Proof.
  intros Ham Hts Hpow HN Hx Hj Heq. unfold main, computeGPU. cbv zeta.
  rewrite initialValues_copy by apply length_optionValuesAtPayoff.
  unfold reportPrice. cbv zeta. rewrite <- Heq, double_to_int_IZR.
  destruct (Req_dec_T _ _); [|done]. rewrite decide_True by lia.
  unfold timeLoop. cbv zeta.
  destruct (Z.to_nat (timesteps params)) as [|t] eqn:Ht; [lia|].
  replace (timesteps params) with (Z.of_nat (S t)) by lia.
  rewrite seqZ_S, foldl_app. cbn [foldl].
  pose proof (length_steps params (characteristicOf params)
                (seqZ 0 (Z.of_nat t))
                (take (Z.to_nat (resolution params))
                   (optionValuesAtPayoff params (assetPricesAtPayoff params)),
                 cudaMalloc (resolution params))) as Hlen.
  cbn [fst] in Hlen.
  rewrite length_take_ge in Hlen
    by (rewrite length_optionValuesAtPayoff; lia).
  rewrite length_optionValuesAtPayoff in Hlen.
  destruct (foldl _ _ (seqZ 0 (Z.of_nat t))) as [p f]. cbn [fst] in Hlen.
  unfold timestep. cbv zeta.
  pose proof (length_propagate params (characteristicOf params) p f
                (0 + Z.of_nat t)) as [Hlp _].
  destruct (propagate params (characteristicOf params) (p, f)
              (0 + Z.of_nat t)) as [p' f'].
  cbn [fst] in *. rewrite decide_True by done.
  erewrite launch_lookup by (apply earlyExercise_pointwise || lia).
  rewrite grid_covers_pow2 by done.
  rewrite Z2Nat.id by lia. rewrite decide_True by lia.
  destruct (lookup_lt_is_Some_2 p' (Z.to_nat j) ltac:(lia)) as [w ->].
  cbn [fmap option_fmap option_map]. eexists. split; [done|].
  eapply Rle_trans; [|apply Rmax_r].
  assert (x_min params + IZR j * delta_x params = 0) as Hzero.
  { unfold delta_x. cbv zeta. rewrite Heq, minus_IZR.
    apply (IZR_le 2) in HN. field. split; lra. }
  unfold intrinsic. cbv zeta. rewrite Hzero, exp_0, Rmult_1_r.
  destruct (optionPayoffType params); apply Rle_refl.
Qed.

End American.

Lemma answer_index_flat_american :
  IZR 0 = - x_min (Externals := referenceExternals 0 1 0)
              (flatMarket American 0 0)
          * IZR (resolution (flatMarket American 0 0) - 1)
          / (x_max (Externals := referenceExternals 0 1 0)
               (flatMarket American 0 0)
             - x_min (Externals := referenceExternals 0 1 0)
                 (flatMarket American 0 0)).
Proof. simpl. rewrite minus_IZR. lra. Qed.

Lemma american_price_dominates_payoff_witness :
  optionExerciseType (flatMarket American 0 0) = American ∧
  (1 ≤ timesteps (flatMarket American 0 0))%Z ∧
  isPowerOfTwo (resolution (flatMarket American 0 0)) ∧
  (2 ≤ resolution (flatMarket American 0 0))%Z ∧
  x_min (Externals := referenceExternals 0 1 0) (flatMarket American 0 0)
    ≠ x_max (Externals := referenceExternals 0 1 0)
        (flatMarket American 0 0) ∧
  (0 ≤ 0 < resolution (flatMarket American 0 0))%Z ∧
  ∃ v : R,
    main (H := referenceExternals 0 1 0) (flatMarket American 0 0) = Some v ∧
    Rmax (1 - 0) 0 <= v.
Proof.
  assert (1 ≤ timesteps (flatMarket American 0 0))%Z as Hts by (simpl; lia).
  assert (2 ≤ resolution (flatMarket American 0 0))%Z as HN by (simpl; lia).
  assert (x_min (Externals := referenceExternals 0 1 0)
            (flatMarket American 0 0)
          ≠ x_max (Externals := referenceExternals 0 1 0)
              (flatMarket American 0 0)) as Hx by (simpl; lra).
  assert (0 ≤ 0 < resolution (flatMarket American 0 0))%Z as Hj
    by (simpl; lia).
  split; [reflexivity|]. split; [exact Hts|].
  split; [exact isPowerOfTwo_2|]. split; [exact HN|]. split; [exact Hx|].
  split; [exact Hj|].
  exact (american_price_dominates_payoff (H := referenceExternals 0 1 0)
           (flatMarket American 0 0) 0 eq_refl Hts isPowerOfTwo_2 HN Hx Hj
           answer_index_flat_american).
Defined.
